(** * micromouse maze generator: a shallow embedding of [maze.py]

    The development follows the script top to bottom: the direction table,
    the grid of cell dictionaries, [get_adjacent_cell], the randomized
    depth-first walk of [generate_directional_maze], and finally the page
    arithmetic of the slicing loop.

    Python lists are Rocq lists indexed with Python's rules (negative
    indices count from the end, anything else out of range raises
    [IndexError]).  A cell dictionary is a record; a reference to a cell
    dictionary is its position (row, column) in the grid, and assignments
    through a reference update the grid at that position.  Exceptions are
    values of a small error monad.  The random source is an oracle
    [rnd : nat -> Z] giving the raw value of the k-th draw. *)

From Stdlib Require Import ZArith List Bool Lia QArith Qround Lqa.
From Stdlib Require PrimFloat SpecFloat FloatOps.
From stdpp Require Import base option list relations.

#[local] Open Scope Z_scope.

(** ** Exceptions *)

Inductive exn : Set := IndexError | ValueError.

Inductive result (A : Type) : Type :=
| Ok (a : A)
| Raise (e : exn).
Arguments Ok {A} a.
Arguments Raise {A} e.

Definition bind {A B : Type} (r : result A) (k : A -> result B) : result B :=
  match r with
  | Ok a => k a
  | Raise e => Raise e
  end.

Notation "'let*' x ':=' r 'in' k" := (bind r (fun x => k))
  (at level 10, x name, r at level 100, k at level 200).

(** ** Python list subscripts *)

(** [l[i]] for a list of length [len]: the position that is read, or
    [IndexError]. *)
Definition norm_index (len : nat) (i : Z) : result nat :=
  if (0 <=? i) && (i <? Z.of_nat len) then Ok (Z.to_nat i)
  else if (i <? 0) && (- Z.of_nat len <=? i) then Ok (Z.to_nat (Z.of_nat len + i))
  else Raise IndexError.

(** [range(n)] *)
Definition py_range (n : Z) : list Z := seqZ 0 n.

(** ** Cardinal direction values *)

Definition NORTH : nat := 0.
Definition EAST : nat := 1.
Definition SOUTH : nat := 2.
Definition WEST : nat := 3.

(** ** Cells and the grid *)

Record cell : Type := mkCell {
  coords : Z * Z;
  visited : bool;
  connections : list bool
}.

Abbreviation grid := (list (list cell)).

(** A reference to one of the cell dictionaries held by [maze]: row, column. *)
Abbreviation ref := (nat * nat)%type.

Definition deref (m : grid) (p : ref) : option cell :=
  match m !! p.1 with
  | Some row => row !! p.2
  | None => None
  end.

(** Reading through a reference.  References are only ever obtained by
    subscripting the grid, whose shape never changes, so the error case is
    not reachable; it keeps the model total. *)
Definition load (m : grid) (p : ref) : result cell :=
  match deref m p with
  | Some c => Ok c
  | None => Raise IndexError
  end.

(** Updating the dictionary a reference points to. *)
Definition store (m : grid) (p : ref) (f : cell -> cell) : grid :=
  alter (alter f p.2) p.1 m.

(** [maze[i][j]] as a reference. *)
Definition subscript2 (m : grid) (i j : Z) : result ref :=
  let* r := norm_index (length m) i in
  match m !! r with
  | None => Raise IndexError
  | Some row => let* c := norm_index (length row) j in Ok (r, c)
  end.

Definition mark_visited (c : cell) : cell :=
  mkCell (coords c) true (connections c).

Definition open_connection (i : nat) (c : cell) : cell :=
  mkCell (coords c) (visited c) (<[i := true]> (connections c)).

(** [cell['connections'][i] = True] *)
Definition assign_connection (m : grid) (p : ref) (i : nat) : result grid :=
  let* c := load m p in
  if (i <? length (connections c))%nat then Ok (store m p (open_connection i))
  else Raise IndexError.

(** [cell['visited'] = True] *)
Definition assign_visited (m : grid) (p : ref) : grid := store m p mark_visited.

(** ** Direction metadata *)

Record direction_data : Type := mkDir {
  dd_ids : nat * nat;            (* the entry's id and its opposite id *)
  dd_delta : Z * Z;              (* dx, dy *)
  dd_bounds : Z -> Z -> bool     (* does the adjacent cell exist *)
}.

(** State of the walk: the globals [maze], [start_cell], [end_cell] and the
    locals of [generate_directional_maze].  [visited_stack] is the local
    list [visited], its last element first. *)
Record gen_state : Type := mkState {
  maze : grid;
  start_cell : ref;
  end_cell : option ref;
  current_cell : ref;
  visited_stack : list ref;
  current_path_length : Z;
  longest_path_length : Z;
  nVisited : Z;
  draws : nat                    (* number of random draws made so far *)
}.

Inductive outcome : Type :=
| Finished (st : gen_state)
| Raised (e : exn)
| OutOfFuel.

Section Maze.

Variables num_cols num_rows : Z.
Variable rnd : nat -> Z.

Definition directional_metadata : list direction_data :=
  [ mkDir (NORTH, SOUTH) (0, -1) (fun x y => 0 <? y);
    mkDir (EAST, WEST) (1, 0) (fun x y => x <? num_cols - 1);
    mkDir (SOUTH, NORTH) (0, 1) (fun x y => y <? num_rows - 1);
    mkDir (WEST, EAST) (-1, 0) (fun x y => 0 <? x) ].

(** The grid as created at module level. *)
Definition maze_init : grid :=
  (fun y =>
     (fun x => mkCell (x, y) false [false; false; false; false])
       <$> py_range num_cols)
    <$> py_range num_rows.

Definition get_adjacent_cell (m : grid) (base modifier : Z * Z) : result ref :=
  let new_x := base.1 + modifier.1 in
  let new_y := base.2 + modifier.2 in
  subscript2 m new_y new_x.

(** [secrets.randbelow(n)], using draw number [k]. *)
Definition randbelow (n : Z) (k : nat) : result Z :=
  if n <=? 0 then Raise ValueError else Ok (rnd k mod n).

(** [secrets.choice(seq)], using draw number [k]. *)
Definition choice {A : Type} (l : list A) (k : nat) : result A :=
  match l with
  | [] => Raise IndexError
  | a :: _ =>
      let* i := randbelow (Z.of_nat (length l)) k in
      Ok (nth (Z.to_nat i) l a)
  end.

(** The [for direction_data in directional_metadata] loop: the entries
    whose bounds check holds and whose adjacent cell is not visited, in
    table order. *)
Fixpoint unvisited_neighbours (m : grid) (cc : Z * Z) (dds : list direction_data)
  : result (list direction_data) :=
  match dds with
  | [] => Ok []
  | dd :: rest =>
      let* keep :=
        (if dd_bounds dd cc.1 cc.2
         then let* a := get_adjacent_cell m cc (dd_delta dd) in
              let* c := load m a in
              Ok (negb (visited c))
         else Ok false) in
      let* tl := unvisited_neighbours m cc rest in
      Ok (if keep : bool then dd :: tl else tl)
  end.

(** One iteration of the [while] loop. *)
Definition loop_body (st : gen_state) : result gen_state :=
  let* cur := load (maze st) (current_cell st) in
  let* neighbours := unvisited_neighbours (maze st) (coords cur) directional_metadata in
  match neighbours with
  | _ :: _ =>
      let* ch := choice neighbours (draws st) in
      let* m1 := assign_connection (maze st) (current_cell st) (dd_ids ch).1 in
      let* nxt := get_adjacent_cell m1 (coords cur) (dd_delta ch) in
      let* m2 := assign_connection m1 nxt (dd_ids ch).2 in
      let m3 := assign_visited m2 nxt in
      let cpl := current_path_length st + 1 in
      let longer := longest_path_length st <? cpl in
      Ok (mkState m3 (start_cell st)
            (if longer then Some nxt else end_cell st)
            nxt
            (nxt :: visited_stack st)
            cpl
            (if longer then cpl else longest_path_length st)
            (nVisited st + 1)
            (S (draws st)))
  | [] =>
      match visited_stack st with
      | [] => Raise IndexError
      | top :: rest =>
          Ok (mkState (maze st) (start_cell st) (end_cell st)
                top rest
                (current_path_length st - 1)
                (longest_path_length st)
                (nVisited st)
                (draws st))
      end
  end.

(** [maze[random_start_num // num_rows][random_start_num % num_cols]] *)
Definition select_start (random_start_num : Z) : result ref :=
  subscript2 maze_init (random_start_num / num_rows) (random_start_num mod num_cols).

(** The code before the loop: the start cell is drawn, marked and pushed. *)
Definition initial_state : result gen_state :=
  let* random_start_num := randbelow (num_rows * num_cols) 0 in
  let* s := select_start random_start_num in
  Ok (mkState (assign_visited maze_init s) s None s [s] 1 1 1 1).

Fixpoint while_loop (fuel : nat) (st : gen_state) : outcome :=
  if nVisited st =? num_cols * num_rows then Finished st
  else match fuel with
       | O => OutOfFuel
       | S fuel' =>
           match loop_body st with
           | Ok st' => while_loop fuel' st'
           | Raise e => Raised e
           end
       end.

Definition generate_directional_maze (fuel : nat) : outcome :=
  match initial_state with
  | Ok st => while_loop fuel st
  | Raise e => Raised e
  end.

End Maze.

(** ** Trees grown leaf by leaf

    The walk opens a passage only from a visited cell to an unvisited one.
    [grown s V E] is the shape this gives to any graph: [V] starts as the
    root alone and every edge of [E] attaches one new vertex to an old one. *)

Section Grown.

Context {A : Type} `{EqDecision A}.

Inductive grown (s : A) : list A -> list (A * A) -> Prop :=
| grown_root : grown s [s] []
| grown_leaf V E p q :
    grown s V E -> p ∈ V -> q ∉ V -> grown s (q :: V) ((p, q) :: E).

(** The undirected edge relation of an edge list. *)
Definition adj (E : list (A * A)) (a b : A) : Prop :=
  (a, b) ∈ E \/ (b, a) ∈ E.

(** A step along an edge other than the edge between [a] and [b]. *)
Definition step_avoiding (R : A -> A -> Prop) (a b u v : A) : Prop :=
  R u v /\ ~ ((u = a /\ v = b) \/ (u = b /\ v = a)).

(** Consecutive elements of a list are related. *)
Fixpoint chain (R : A -> A -> Prop) (l : list A) : Prop :=
  match l with
  | a :: (b :: _) as tl => R a b /\ chain R tl
  | _ => True
  end.

(** A simple path from [a] to [b]: distinct vertices, each related to
    the next. *)
Definition simple_path (R : A -> A -> Prop) (a b : A) (l : list A) : Prop :=
  head l = Some a /\ last l = Some b /\ NoDup l /\ chain R l.

(** A simple cycle: at least three distinct vertices, each related to the
    next and the last one to the first. *)
Definition cycle (R : A -> A -> Prop) (l : list A) : Prop :=
  (3 <= length l)%nat /\ NoDup l /\ chain R l /\
  exists a z, head l = Some a /\ last l = Some z /\ R z a.

End Grown.

(** ** Vocabulary for stating properties of the grid *)

(** The two flags of a cell as total functions of a reference. *)
Definition vis (m : grid) (p : ref) : bool :=
  match deref m p with
  | Some c => visited c
  | None => false
  end.

Definition conn (m : grid) (p : ref) (i : nat) : bool :=
  match deref m p with
  | Some c => nth i (connections c) false
  | None => false
  end.

(** The cell one step from [p] in the direction of a table entry. *)
Definition nbr (p : ref) (dd : direction_data) : ref :=
  (Z.to_nat (Z.of_nat p.1 + (dd_delta dd).2),
   Z.to_nat (Z.of_nat p.2 + (dd_delta dd).1)).

Section MazeSpec.

Variables num_cols num_rows : Z.
Variable rnd : nat -> Z.

Definition in_grid (p : ref) : Prop :=
  Z.of_nat p.1 < num_rows /\ Z.of_nat p.2 < num_cols.

(** Shape of the grid: [num_rows] rows of [num_cols] cells, each cell
    carrying its own position and four connection flags. *)
Definition wf_grid (m : grid) : Prop :=
  length m = Z.to_nat num_rows /\
  (forall r row, m !! r = Some row -> length row = Z.to_nat num_cols) /\
  (forall p c, deref m p = Some c ->
     coords c = (Z.of_nat p.2, Z.of_nat p.1) /\ length (connections c) = 4%nat).

(** [dd] leads from [a] to an existing cell. *)
Definition leads (dd : direction_data) (a : ref) : Prop :=
  dd ∈ directional_metadata num_cols num_rows /\
  dd_bounds dd (Z.of_nat a.2) (Z.of_nat a.1) = true.

(** An open passage from [a] to the adjacent cell [b]. *)
Definition passage (m : grid) (a b : ref) : Prop :=
  in_grid a /\
  exists dd, leads dd a /\ b = nbr a dd /\ conn m a (dd_ids dd).1 = true.

(** The frontier of a cell: the table entries that lead to an existing,
    unvisited cell. *)
Definition frontier (m : grid) (a : ref) : list direction_data :=
  List.filter
    (fun dd => dd_bounds dd (Z.of_nat a.2) (Z.of_nat a.1) && negb (vis m (nbr a dd)))
    (directional_metadata num_cols num_rows).

(** The grid after the passage from [a] along [dd] has been opened and
    the cell at its far end marked. *)
Definition open_passage (m : grid) (a : ref) (dd : direction_data) : grid :=
  assign_visited
    (store (store m a (open_connection (dd_ids dd).1))
           (nbr a dd) (open_connection (dd_ids dd).2))
    (nbr a dd).

(** The two ways an iteration ends. *)
Definition advance (st : gen_state) (dd : direction_data) : gen_state :=
  let nxt := nbr (current_cell st) dd in
  let cpl := current_path_length st + 1 in
  let longer := longest_path_length st <? cpl in
  mkState (open_passage (maze st) (current_cell st) dd) (start_cell st)
    (if longer then Some nxt else end_cell st)
    nxt (nxt :: visited_stack st) cpl
    (if longer then cpl else longest_path_length st)
    (nVisited st + 1) (S (draws st)).

Definition backtrack (st : gen_state) (top : ref) (rest : list ref) : gen_state :=
  mkState (maze st) (start_cell st) (end_cell st) top rest
    (current_path_length st - 1) (longest_path_length st)
    (nVisited st) (draws st).

(** The cells reached from [a] through an open passage, in table order. *)
Definition open_neighbours (m : grid) (a : ref) : list ref :=
  map (nbr a)
    (List.filter
       (fun dd => dd_bounds dd (Z.of_nat a.2) (Z.of_nat a.1) && conn m a (dd_ids dd).1)
       (directional_metadata num_cols num_rows)).

(** All references, row by row. *)
Definition all_refs : list ref :=
  seq 0 (Z.to_nat num_rows) ≫=
    (fun r => (fun c => (r, c)) <$> seq 0 (Z.to_nat num_cols)).

(** The passages as the drawing loop sees them: the SOUTH flag of a cell
    not in the last row, the EAST flag of a cell not in the last column. *)
Definition south_open (m : grid) (p : ref) : bool :=
  (Z.of_nat p.1 <? num_rows - 1) && conn m p SOUTH.

Definition east_open (m : grid) (p : ref) : bool :=
  (Z.of_nat p.2 <? num_cols - 1) && conn m p EAST.

Definition num_passages (m : grid) : nat :=
  (length (List.filter (south_open m) all_refs) +
   length (List.filter (east_open m) all_refs))%nat.

(** States of the walk: the state before the first iteration and every
    state an iteration produces while the loop condition holds. *)
Inductive reachable : gen_state -> Prop :=
| reach_init st :
    initial_state num_cols num_rows rnd = Ok st -> reachable st
| reach_step st st' :
    reachable st ->
    nVisited st <> num_cols * num_rows ->
    loop_body num_cols num_rows rnd st = Ok st' ->
    reachable st'.

(** The first [k] iterations of the loop, for evaluating a run. *)
Fixpoint iterations (k : nat) (st : gen_state) : result gen_state :=
  match k with
  | O => Ok st
  | S k' =>
      if nVisited st =? num_cols * num_rows then Ok st
      else let* st' := loop_body num_cols num_rows rnd st in iterations k' st'
  end.

Definition state_after (k : nat) : result gen_state :=
  let* st := initial_state num_cols num_rows rnd in iterations k st.

(** What the walk maintains.  [V] lists the visited cells, newest first,
    and [E] the passages as (from, to) pairs in the order they were
    opened. *)
Record walk_inv (st : gen_state) (V : list ref) (E : list (ref * ref)) : Prop := {
  inv_wf : wf_grid (maze st);
  inv_grown : grown (start_cell st) V E;
  inv_in_grid : forall p, p ∈ V -> in_grid p;
  inv_vis : forall p, vis (maze st) p = true <-> p ∈ V;
  inv_conn : forall a dd, in_grid a -> dd ∈ directional_metadata num_cols num_rows ->
     (conn (maze st) a (dd_ids dd).1 = true <->
      dd_bounds dd (Z.of_nat a.2) (Z.of_nat a.1) = true /\ adj E a (nbr a dd));
  inv_edges : forall a b, (a, b) ∈ E -> in_grid a /\ exists dd, leads dd a /\ b = nbr a dd;
  inv_cur : current_cell st ∈ V;
  inv_stack : forall p, p ∈ visited_stack st -> p ∈ V;
  inv_count : nVisited st = Z.of_nat (length V);
  inv_passages : num_passages (maze st) = length E;
  inv_cpl : current_path_length st = Z.of_nat (length (visited_stack st));
  inv_longest : current_path_length st <= longest_path_length st;
  inv_end : match end_cell st with
            | None => V = [start_cell st] /\ longest_path_length st = 1 /\
                      current_path_length st = 1 /\ current_cell st = start_cell st
            | Some e => e ∈ V /\ e <> start_cell st
            end
}.

End MazeSpec.

(** ** Two runs on the 10 by 10 grid of the script

    A run is fixed by its draws: the start number, then for each advance
    the index chosen among the frontier entries. *)

(** Start at row 1, column 0; go east, north, west into the corner. *)
Definition corner_draws : list Z := [10; 1; 0; 1].

Definition corner_rnd (k : nat) : Z := nth k corner_draws 0.

(** A complete run of 198 iterations that starts at row 7, column 4. *)
Definition long_draws : list Z :=
  [74; 1; 0; 1; 1; 0; 2; 1; 1; 0; 0; 2; 2; 0; 1; 1; 0; 1; 2; 1; 1; 0; 0; 1; 1;
   1; 0; 0; 1; 0; 1; 1; 0; 1; 0; 1; 0; 0; 0; 0; 0; 0; 1; 2; 1; 0; 0; 1; 0; 1;
   0; 2; 2; 0; 1; 1; 0; 1; 1; 0; 1; 0; 0; 1; 0; 0; 2; 0; 1; 0; 0; 0; 0; 0; 0;
   0; 0; 0; 0; 1; 0; 0; 0; 1; 0; 2; 0; 0; 1; 1; 0; 1; 0; 0; 0; 0; 0; 0; 0; 0].

Definition long_rnd (k : nat) : Z := nth k long_draws 0.
(** ** Page layout and slicing

    The script computes the layout in binary64 floating point.

    Lengths and positions ([wall_width], [canvas_width], [maze_edge_x],
    the ends of the crop boxes, ...) are evaluated here over the
    rationals, with the decimal literals of the script taken exactly.
    All of them are multiples of 1/127.  The integers the script derives
    from them by [round], and the comparisons [Image.crop] makes between a
    box end and an integer box start, turn on a boundary that is an
    integer or an integer plus 1/2; no value that is compared is on its
    boundary, so each is at least 1/254 from it.  The binary64 values
    differ from the exact ones by less than that for canvases of less
    than 10^12 pixels a side, so these decisions are the script's.

    The page counts are different: [ceil] is applied to a quotient whose
    exact value is an integer for some grid sizes (51, 135, 261, ...
    columns; 69, ... rows), and there the rounding errors decide.  The
    page counts are therefore computed in binary64, operation by
    operation as the script does, with the kernel's primitive floats. *)

#[local] Open Scope Q_scope.

(** [round(q)]: to the nearest integer, ties to the even one. *)
Definition py_round (q : Q) : Z :=
  let f := Qfloor q in
  match Qcompare (q - inject_Z f) (1 # 2) with
  | Lt => f
  | Gt => (f + 1)%Z
  | Eq => if Z.even f then f else (f + 1)%Z
  end.


Definition printer_dpi : Q := 300.
Definition a4_height_cm : Q := 297 # 10.
Definition a4_width_cm : Q := 21.
Definition cm_to_inch_ratio : Q := 254 # 100.

Definition pixel_width_mm : Q := cm_to_inch_ratio * 10 / printer_dpi.
Definition pixel_width_cm : Q := cm_to_inch_ratio / printer_dpi.

Definition a4_height_px : Q := a4_height_cm / pixel_width_cm.
Definition a4_width_px : Q := a4_width_cm / pixel_width_cm.

Definition wall_width_mm : Q := 80.
Definition path_width_mm : Q := 5.

Definition wall_width : Q := wall_width_mm / pixel_width_mm.
Definition path_width : Q := path_width_mm / pixel_width_mm.

(** *** The same constants in binary64 *)

(** The float an [int] operand is converted to: the nearest binary64
    value, ties to even.  It is exact below 2^53. *)
Definition float_of_int (n : Z) : PrimFloat.float :=
  FloatOps.SF2Prim (SpecFloat.binary_normalize FloatOps.prec FloatOps.emax n 0 false).

(** The exact value of a finite float. *)
Definition float_value (f : PrimFloat.float) : option Q :=
  match FloatOps.Prim2SF f with
  | SpecFloat.S754_zero _ => Some 0
  | SpecFloat.S754_finite s m e =>
      let z := if s then Z.neg m else Z.pos m in
      Some (match e with
            | Z0 => inject_Z z
            | Z.pos k => inject_Z (z * Z.pow_pos 2 k)
            | Z.neg k => z # (Pos.pow 2 k)
            end)
  | _ => None
  end.

(** [math.ceil(f)].  It raises for an infinity or a NaN, which the
    quotients below are not for any grid that can be built; the model
    gives 0 there. *)
Definition py_ceil (f : PrimFloat.float) : Z :=
  match float_value f with
  | Some q => Qceiling q
  | None => 0%Z
  end.

Section Binary64.

Import PrimFloat.
#[local] Set Warnings "-inexact-float".
#[local] Open Scope float_scope.

Definition a4_height_cm_fl : float := 29.7.
Definition a4_width_cm_fl : float := 21.0.
Definition cm_to_inch_ratio_fl : float := 2.54.

(** [printer_dpi], [wall_width_mm] and [path_width_mm] are the ints 300,
    80 and 5. *)
Definition pixel_width_mm_fl : float := cm_to_inch_ratio_fl * float_of_int 10 / float_of_int 300.
Definition pixel_width_cm_fl : float := cm_to_inch_ratio_fl / float_of_int 300.

Definition a4_height_px_fl : float := a4_height_cm_fl / pixel_width_cm_fl.
Definition a4_width_px_fl : float := a4_width_cm_fl / pixel_width_cm_fl.

Definition wall_width_fl : float := float_of_int 80 / pixel_width_mm_fl.
Definition path_width_fl : float := float_of_int 5 / pixel_width_mm_fl.

Definition canvas_buffer_fl : float := wall_width_fl.

Definition canvas_height_fl (num_rows : Z) : float :=
  (canvas_buffer_fl * float_of_int 2) + (path_width_fl * float_of_int (num_rows - 1)%Z)
  + (wall_width_fl * float_of_int (num_rows - 1)%Z).

Definition canvas_width_fl (num_cols : Z) : float :=
  (canvas_buffer_fl * float_of_int 2) + (path_width_fl * float_of_int (num_cols - 1)%Z)
  + (wall_width_fl * float_of_int (num_cols - 1)%Z).

(** The two quotients [ceil] is applied to. *)
Definition pages_quotient_horizontal (num_cols : Z) : float :=
  canvas_width_fl num_cols / a4_width_px_fl.

Definition pages_quotient_vertical (num_rows : Z) : float :=
  canvas_height_fl num_rows / a4_height_px_fl.

End Binary64.

Section Layout.

Variables num_cols num_rows : Z.

Definition canvas_buffer : Q := wall_width.

Definition canvas_height : Q :=
  (canvas_buffer * 2) + (path_width * (inject_Z num_rows - 1))
  + (wall_width * (inject_Z num_rows - 1)).

Definition canvas_width : Q :=
  (canvas_buffer * 2) + (path_width * (inject_Z num_cols - 1))
  + (wall_width * (inject_Z num_cols - 1)).

Definition a4_pages_required_horizontal : Z :=
  py_ceil (pages_quotient_horizontal num_cols).
Definition a4_pages_required_vertical : Z :=
  py_ceil (pages_quotient_vertical num_rows).

(** Size of [image], the full canvas. *)
Definition image_size : Z * Z := (py_round canvas_width, py_round canvas_height).

Definition maze_edge_x : Q :=
  (path_width * inject_Z num_cols - 1) + (wall_width * inject_Z num_cols - 1) + path_width.

Definition maze_edge_y : Q :=
  (path_width * inject_Z num_rows - 1) + (wall_width * inject_Z num_rows - 1) + path_width.

(** The body of the slicing loop, for page column [x] and page row [y]. *)
Definition is_last_page_x (x : Z) : bool := (x =? a4_pages_required_horizontal - 1)%Z.
Definition is_last_page_y (y : Z) : bool := (y =? a4_pages_required_vertical - 1)%Z.

Definition slice_start_x (x : Z) : Z := (x * py_round a4_width_px)%Z.
Definition slice_start_y (y : Z) : Z := (y * py_round a4_height_px)%Z.

Definition slice_end_x (x : Z) : Q :=
  if negb (is_last_page_x x) then inject_Z (x + 1) * a4_width_px - 1 else maze_edge_x.

Definition slice_end_y (y : Z) : Q :=
  if negb (is_last_page_y y) then inject_Z (y + 1) * a4_height_px - 1 else maze_edge_y.

(** The pairs the two [for] loops run through: page row, page column. *)
Definition page_indices : list (Z * Z) :=
  y ← seqZ 0 a4_pages_required_vertical;
  x ← seqZ 0 a4_pages_required_horizontal;
  [(y, x)].

(** A canvas pixel lies in the source rectangle of tile ([y], [x]).  The
    rectangle is taken closed at both ends, the widest reading of the
    four numbers passed to [crop]. *)
Definition in_slice (px py : Z) (y x : Z) : Prop :=
  inject_Z (slice_start_x x) <= inject_Z px /\ inject_Z px <= slice_end_x x /\
   inject_Z (slice_start_y y) <= inject_Z py /\ inject_Z py <= slice_end_y y.

(** The tiles partition the canvas: every canvas pixel lies in the source
    rectangle of exactly one tile. *)
Definition tiles_partition_canvas : Prop :=
  forall px py,
    (0 <= px < image_size.1)%Z -> (0 <= py < image_size.2)%Z ->
    exists t, t ∈ page_indices /\ in_slice px py t.1 t.2 /\
      forall t', t' ∈ page_indices -> in_slice px py t'.1 t'.2 -> t' = t.

(** [Image.crop] for the box of the loop body, as far as the size of
    its result: Pillow raises [ValueError] when the right edge of the box
    is less than the left one or the lower edge less than the upper one;
    otherwise it rounds the four numbers and takes the right and lower
    edges as excluded. *)
Definition crop_size (x y : Z) : result (Z * Z) :=
  if negb (Qle_bool (inject_Z (slice_start_x x)) (slice_end_x x)) then Raise ValueError
  else if negb (Qle_bool (inject_Z (slice_start_y y)) (slice_end_y y)) then Raise ValueError
  else Ok ((py_round (slice_end_x x) - slice_start_x x)%Z,
           (py_round (slice_end_y y) - slice_start_y y)%Z).

(** Size of [image_slice] when it reaches [save]: the crop is taken
    first, and a last-row or last-column slice is then replaced by a new
    page-sized image. *)
Definition slice_size (x y : Z) : result (Z * Z) :=
  let* cropped := crop_size x y in
  Ok (if is_last_page_x x || is_last_page_y y
      then (py_round a4_width_px, py_round a4_height_px)
      else cropped).

End Layout.

#[local] Close Scope Q_scope.

(** ** Images, as far as the blank check needs them

    An image is its rows of pixels, a pixel its red, green and blue bytes.
    Only the operations the slicing loop applies after cropping are
    modelled: a new white image, pasting at the origin, conversion to
    luminance and the extrema of the result. *)

Definition pixel : Type := (Z * Z * Z)%type.

Abbreviation image := (list (list pixel)).

Definition white : pixel := (255, 255, 255).

(** [Image.new("RGB", (w, h), "white")] *)
Definition image_new (w h : Z) : image := replicate (Z.to_nat h) (replicate (Z.to_nat w) white).

(** The first elements of [base] replaced by those of [top], up to the
    length of [base]. *)
Fixpoint overlay {A : Type} (f : A -> A -> A) (base top : list A) : list A :=
  match base, top with
  | b :: base', t :: top' => f b t :: overlay f base' top'
  | _, _ => base
  end.

(** [base.paste(tmp)]: [tmp] is drawn with its corner at the origin and
    clipped to [base]. *)
Definition paste (base tmp : image) : image :=
  overlay (overlay (fun _ p => p)) base tmp.

(** Luminance of a pixel, Pillow's conversion to mode "L". *)
Definition luma (p : pixel) : Z :=
  let '(r, g, b) := p in
  Z.shiftr (r * 19595 + g * 38470 + b * 7471 + 32768) 16.

(** [img.convert("L")], its pixels row by row. *)
Definition convert_L (img : image) : list Z := luma <$> concat img.

(** [getextrema()] of a luminance image with at least one pixel. *)
Definition getextrema (l : list Z) : option (Z * Z) :=
  match l with
  | [] => None
  | v :: l' => Some (fold_right Z.min v l', fold_right Z.max v l')
  end.

(** The end of the loop body: [None] when the slice is skipped by
    [continue], otherwise the image that is saved. *)
Definition finish_slice (page_w page_h : Z) (is_last_x is_last_y : bool)
    (image_slice : image) : option image :=
  if is_last_x || is_last_y then
    let padded := paste (image_new page_w page_h) image_slice in
    match getextrema (convert_L padded) with
    | Some (lo, hi) => if (lo =? 255) && (hi =? 255) then None else Some padded
    | None => Some padded
    end
  else Some image_slice.

(** ** Drawing

    What the drawing loop and the marker code compute before they call the
    drawing primitives: the rectangles and boxes, as rationals. *)

#[local] Open Scope Q_scope.

Abbreviation rectangle := (Q * Q * Q * Q)%type.

(** Left edge of the square of a cell in column [col]; the same expression
    gives the upper edge for a row. *)
Definition cell_offset (i : Z) : Q :=
  canvas_buffer + (path_width * inject_Z i) + (wall_width * inject_Z i).

Section Render.

Variables num_cols num_rows : Z.

(** The rectangles drawn for the cell at [p]: one down to the cell below
    if the SOUTH flag is set and the row is not the last, one across to
    the cell on the right if the EAST flag is set and the column is not
    the last. *)
Definition cell_rectangles (m : grid) (p : ref) : list rectangle :=
  let x0 := cell_offset (Z.of_nat p.2) in
  let y0 := cell_offset (Z.of_nat p.1) in
  let x1 := x0 + path_width in
  let y1 := y0 + path_width in
  (if south_open num_rows m p then [(x0, y0, x1, y1 + wall_width + path_width)] else [])
  ++ (if east_open num_cols m p then [(x0, y0, x1 + wall_width + path_width, y1)] else []).

(** All rectangles of the drawing loop, in drawing order. *)
Definition drawn_rectangles (m : grid) : list rectangle :=
  all_refs num_cols num_rows ≫= cell_rectangles m.

End Render.

(** Size of start and end markers. *)
Definition marker_size : Q := path_width * 4.
Definition marker_offset : Q := (marker_size / 4) + path_width / 2.

(** The box of the marker of the cell with coordinates [x], [y]. *)
Definition marker_box (x y : Z) : rectangle :=
  let x0 := canvas_buffer + (path_width * inject_Z x) + (wall_width * inject_Z x)
            - marker_offset in
  let y0 := canvas_buffer + (path_width * inject_Z y) + (wall_width * inject_Z y)
            - marker_offset in
  (x0, y0, x0 + marker_size, y0 + marker_size).

#[local] Close Scope Q_scope.

(** The colour the rectangles and markers are filled with. *)
Definition black : pixel := (0, 0, 0).

(** The pixel in row [i] and column [j] of an image, if it has one. *)
Definition pixel_at (img : image) (i j : nat) : option pixel :=
  img !! i ≫= (fun row => row !! j).

(** * Properties *)

(** ** Grown trees *)

Section GrownFacts.

Context {A : Type} `{EqDecision A}.
Implicit Types (V : list A) (E : list (A * A)).

Lemma adj_sym E a b : adj E a b -> adj E b a.
Proof. unfold adj. tauto. Qed.

Lemma adj_cons E p q a b :
  adj ((p, q) :: E) a b <->
  (a = p /\ b = q) \/ (a = q /\ b = p) \/ adj E a b.
Proof.
  unfold adj. rewrite !elem_of_cons. split.
  - intros [[H|H]|[H|H]]; try (inversion H; subst); tauto.
  - intros [[-> ->]|[[-> ->]|[H|H]]]; tauto.
Qed.

Lemma grown_root_in s V E : grown s V E -> s ∈ V.
Proof. induction 1; [apply list_elem_of_here | by apply list_elem_of_further]. Qed.

Lemma grown_NoDup s V E : grown s V E -> NoDup V.
Proof.
  induction 1.
  - apply NoDup_singleton.
  - by apply NoDup_cons.
Qed.

Lemma grown_length s V E : grown s V E -> length V = S (length E).
Proof. induction 1; simpl; congruence. Qed.

Lemma grown_edge_in s V E a b :
  grown s V E -> (a, b) ∈ E -> a ∈ V /\ b ∈ V.
Proof.
  induction 1 as [|V E p q Hg IH Hp Hq]; intros Hab.
  - by apply elem_of_nil in Hab.
  - apply elem_of_cons in Hab as [Heq|Hin].
    + inversion Heq; subst. split; [by apply list_elem_of_further | apply list_elem_of_here].
    + destruct (IH Hin). split; by apply list_elem_of_further.
Qed.

Lemma grown_adj_in s V E a b : grown s V E -> adj E a b -> a ∈ V /\ b ∈ V.
Proof.
  intros Hg [H|H]; apply (grown_edge_in _ _ _ _ _ Hg) in H; tauto.
Qed.

(** Every vertex is joined to the root. *)
Lemma grown_connected s V E v : grown s V E -> v ∈ V -> rtc (adj E) s v.
Proof.
  intros Hg. revert v.
  induction Hg as [|V E p q Hg IH Hp Hq]; intros v Hv.
  - apply list_elem_of_singleton in Hv as ->. apply rtc_refl.
  - assert (Hmono : forall x, rtc (adj E) s x -> rtc (adj ((p, q) :: E)) s x).
    { intros x. apply rtc_subrel. intros u w Huw. apply adj_cons. tauto. }
    apply elem_of_cons in Hv as [->|Hv].
    + eapply rtc_r; [apply Hmono, IH, Hp|]. apply adj_cons. tauto.
    + apply Hmono, IH, Hv.
Qed.

(** Every edge is a bridge: without it its two ends fall apart. *)
Lemma grown_bridge s V E a b :
  grown s V E -> adj E a b -> ~ rtc (step_avoiding (adj E) a b) a b.
Proof.
  intros Hg. revert a b.
  induction Hg as [|V E p q Hg IH Hp Hq]; intros a b Hab Hpath.
  - destruct Hab as [H|H]; by apply elem_of_nil in H.
  - assert (Hq' : forall x, adj E q x -> False).
    { intros x Hx. apply (grown_adj_in _ _ _ _ _ Hg) in Hx. tauto. }
    assert (Hq'' : forall x, adj E x q -> False).
    { intros x Hx. apply (grown_adj_in _ _ _ _ _ Hg) in Hx. tauto. }
    assert (Hpq : p <> q) by (intros ->; tauto).
    apply adj_cons in Hab as [[-> ->]|[[-> ->]|Hab]].
    + (* the new edge, from the old end: look at the last step *)
      apply rtc_inv_r in Hpath as [?|(y & _ & [Hy Hne])]; [done|].
      apply adj_cons in Hy as [[-> _]|[[-> ?]|Hy]]; [tauto|done|by eapply Hq''].
    + (* the new edge, from the leaf: look at the first step *)
      apply rtc_inv in Hpath as [?|(y & [Hy Hne] & _)]; [done|].
      apply adj_cons in Hy as [[? _]|[[_ ->]|Hy]]; [done|tauto|by eapply Hq'].
    + (* an old edge: walks through the leaf go in and straight out again *)
      destruct (grown_adj_in _ _ _ _ _ Hg Hab) as [Ha Hb].
      assert (Haq : a <> q) by (intros ->; tauto).
      assert (Hbq : b <> q) by (intros ->; tauto).
      set (proj := fun x : A => if decide (x = q) then p else x).
      assert (Hproj : forall x y,
                 rtc (step_avoiding (adj ((p, q) :: E)) a b) x y ->
                 rtc (step_avoiding (adj E) a b) (proj x) (proj y)).
      { induction 1 as [|x y z [Hxy Hne] _ IHr]; [apply rtc_refl|].
        apply adj_cons in Hxy as [[-> ->]|[[-> ->]|Hxy]].
        - unfold proj at 1. destruct (decide (p = q)); [done|].
          unfold proj in IHr at 1. by destruct (decide (q = q)).
        - unfold proj at 1. destruct (decide (q = q)); [|done].
          unfold proj in IHr at 1. by destruct (decide (p = q)).
        - destruct (grown_adj_in _ _ _ _ _ Hg Hxy) as [Hx Hy].
          eapply rtc_l; [|apply IHr].
          unfold proj.
          destruct (decide (x = q)) as [->|]; [tauto|].
          destruct (decide (y = q)) as [->|]; [tauto|].
          by split. }
      apply Hproj in Hpath. unfold proj in Hpath.
      destruct (decide (a = q)); [done|]. destruct (decide (b = q)); [done|].
      by eapply IH.
Qed.

Lemma chain_rtc (R : A -> A -> Prop) (P : A -> A -> Prop) l a z :
  chain R (a :: l) -> last (a :: l) = Some z ->
  (forall u v, u ∈ a :: l -> v ∈ l -> R u v -> P u v) ->
  rtc P a z.
Proof.
  revert a. induction l as [|b l IH]; intros a Hc Hl HP.
  - simpl in Hl. inversion Hl. apply rtc_refl.
  - destruct Hc as [Hab Hc].
    eapply rtc_l.
    + apply HP; [apply list_elem_of_here | apply list_elem_of_here | done].
    + apply IH; [done | by rewrite last_cons_cons in Hl |].
      intros u v Hu Hv. apply HP; by apply list_elem_of_further.
Qed.

(** A symmetric relation all of whose edges are bridges has no simple
    cycle. *)
Lemma bridges_acyclic (R : A -> A -> Prop) :
  (forall a b, R a b -> R b a) ->
  (forall a b, R a b -> ~ rtc (step_avoiding R a b) a b) ->
  forall l, ~ cycle R l.
Proof.
  intros Hsym Hbridge l (Hlen & Hnd & Hc & a & z & Hhd & Hlast & Hza).
  destruct l as [|a' [|b [|c l]]]; simpl in Hlen; try lia.
  simpl in Hhd. inversion Hhd; subst a'.
  destruct Hc as [Hab Hc].
  apply NoDup_cons in Hnd as [Ha Hnd].
  apply NoDup_cons in Hnd as [Hb Hnd'].
  assert (Hlast' : last (b :: c :: l) = Some z) by (by rewrite last_cons_cons in Hlast).
  assert (Hz : z ∈ c :: l).
  { rewrite last_cons_cons in Hlast'.
    apply last_Some in Hlast' as [l' Hl']. rewrite Hl'.
    apply elem_of_app. right. apply list_elem_of_here. }
  apply (Hbridge b a (Hsym _ _ Hab)).
  eapply rtc_r.
  - apply (chain_rtc R _ (c :: l) b z Hc Hlast').
    intros u v Hu Hv Huv. split; [done|].
    intros [[_ ->]|[-> _]].
    + apply Ha. by apply list_elem_of_further.
    + by apply Ha.
  - split; [done|].
    intros [[-> _]|[-> _]].
    + by apply Hb.
    + apply Ha. by apply list_elem_of_further.
Qed.

Lemma grown_acyclic s V E l : grown s V E -> ~ cycle (adj E) l.
Proof.
  intros Hg. apply bridges_acyclic.
  - apply adj_sym.
  - intros a b. by apply grown_bridge with s V.
Qed.

End GrownFacts.

(** ** The grid as a store *)

Lemma bind_Ok {A B : Type} (a : A) (k : A -> result B) : bind (Ok a) k = k a.
Proof. reflexivity. Qed.

Lemma norm_index_in_range len i :
  0 <= i < Z.of_nat len -> norm_index len i = Ok (Z.to_nat i).
Proof.
  intros H. unfold norm_index.
  destruct (0 <=? i) eqn:H0; [|lia]. destruct (i <? Z.of_nat len) eqn:H1; [done|lia].
Qed.

Lemma norm_index_wrapped len i :
  - Z.of_nat len <= i < 0 -> norm_index len i = Ok (Z.to_nat (Z.of_nat len + i)).
Proof.
  intros H. unfold norm_index.
  destruct (0 <=? i) eqn:H0; [lia|]. simpl.
  destruct (i <? 0) eqn:H1; [|lia]. destruct (- Z.of_nat len <=? i) eqn:H2; [done|lia].
Qed.

Lemma norm_index_raises len i :
  norm_index len i = Raise IndexError <-> (Z.of_nat len <= i \/ i < - Z.of_nat len).
Proof.
  unfold norm_index.
  destruct (0 <=? i) eqn:H0; destruct (i <? Z.of_nat len) eqn:H1; simpl;
    destruct (i <? 0) eqn:H2; destruct (- Z.of_nat len <=? i) eqn:H3; simpl;
    split; intros H; try discriminate; try lia; try done.
Qed.

Lemma deref_store_eq m p f : deref (store m p f) p = f <$> deref m p.
Proof.
  unfold deref, store. rewrite list_lookup_alter_eq.
  destruct (m !! p.1) as [row|]; simpl; [|done].
  apply list_lookup_alter_eq.
Qed.

Lemma deref_store_ne m p q f : p <> q -> deref (store m p f) q = deref m q.
Proof.
  intros Hne. unfold deref, store.
  destruct (decide (p.1 = q.1)) as [Heq|Hr].
  - rewrite Heq, list_lookup_alter_eq.
    destruct (m !! q.1) as [row|]; simpl; [|done].
    apply list_lookup_alter_ne. intros Hc. apply Hne.
    destruct p, q; simpl in *; congruence.
  - by rewrite list_lookup_alter_ne.
Qed.

Lemma vis_store_open m p i q : vis (store m p (open_connection i)) q = vis m q.
Proof.
  unfold vis. destruct (decide (p = q)) as [->|Hne].
  - rewrite deref_store_eq. by destruct (deref m q).
  - by rewrite deref_store_ne.
Qed.

Lemma conn_store_visited m p q j : conn (store m p mark_visited) q j = conn m q j.
Proof.
  unfold conn. destruct (decide (p = q)) as [->|Hne].
  - rewrite deref_store_eq. by destruct (deref m q).
  - by rewrite deref_store_ne.
Qed.

Lemma vis_store_visited m p q :
  is_Some (deref m p) ->
  vis (assign_visited m p) q = if decide (p = q) then true else vis m q.
Proof.
  intros [c Hc]. unfold vis, assign_visited. destruct (decide (p = q)) as [->|Hne].
  - by rewrite deref_store_eq, Hc.
  - by rewrite deref_store_ne.
Qed.

Lemma nth_insert_true (l : list bool) i j :
  (i < length l)%nat ->
  nth j (<[i := true]> l) false = if decide (i = j) then true else nth j l false.
Proof.
  revert i j. induction l as [|b l IH]; intros i j Hi; simpl in Hi; [lia|].
  destruct i as [|i]; destruct j as [|j]; simpl; try done.
  rewrite IH by lia. destruct (decide (i = j)); destruct (decide (S i = S j)); congruence.
Qed.

Lemma conn_store_open m p i q j c :
  deref m p = Some c -> (i < length (connections c))%nat ->
  conn (store m p (open_connection i)) q j =
  if decide (p = q /\ i = j) then true else conn m q j.
Proof.
  intros Hc Hi. unfold conn. destruct (decide (p = q)) as [<-|Hne].
  - rewrite deref_store_eq, Hc. simpl. rewrite nth_insert_true by done.
    destruct (decide (i = j)); destruct (decide (p = p /\ i = j)); tauto.
  - rewrite deref_store_ne by done. destruct (decide (p = q /\ i = j)); tauto.
Qed.

Section GridFacts.

Variables num_cols num_rows : Z.

Local Abbreviation md := (directional_metadata num_cols num_rows).
Local Abbreviation in_grid := (in_grid num_cols num_rows).
Local Abbreviation wf_grid := (wf_grid num_cols num_rows).
Local Abbreviation leads := (leads num_cols num_rows).

Lemma wf_deref m p : wf_grid m -> in_grid p -> is_Some (deref m p).
Proof.
  intros (Hlen & Hrows & _) [Hr Hc]. unfold deref.
  destruct (lookup_lt_is_Some_2 m p.1) as [row Hrow]; [lia|].
  rewrite Hrow. apply lookup_lt_is_Some_2. rewrite (Hrows _ _ Hrow). lia.
Qed.

Lemma deref_in_grid m p c : wf_grid m -> deref m p = Some c -> in_grid p.
Proof.
  intros (Hlen & Hrows & _). unfold deref.
  destruct (m !! p.1) as [row|] eqn:Hrow; [|done]. intros Hc.
  apply lookup_lt_Some in Hc. rewrite (Hrows _ _ Hrow) in Hc.
  apply lookup_lt_Some in Hrow. split; lia.
Qed.


Lemma wf_store m p f :
  wf_grid m ->
  (forall c, coords (f c) = coords c /\
             length (connections (f c)) = length (connections c)) ->
  wf_grid (store m p f).
Proof.
  intros (Hlen & Hrows & Hcells) Hf. split; [|split].
  - unfold store. by rewrite length_alter.
  - intros r row. unfold store. destruct (decide (p.1 = r)) as [<-|Hne].
    + rewrite list_lookup_alter_eq.
      destruct (m !! p.1) as [row0|] eqn:Hrow0; simpl; [|done].
      intros [= <-]. rewrite length_alter. by eapply Hrows.
    + rewrite list_lookup_alter_ne by done. apply Hrows.
  - intros q c. destruct (decide (p = q)) as [<-|Hne].
    + rewrite deref_store_eq.
      destruct (deref m p) as [c0|] eqn:Hc0; simpl; [|done].
      intros [= <-]. destruct (Hf c0) as [-> ->]. by apply Hcells.
    + rewrite deref_store_ne by done. apply Hcells.
Qed.

Lemma wf_assign_visited m p : wf_grid m -> wf_grid (assign_visited m p).
Proof. intros H. by apply wf_store. Qed.

Lemma wf_store_open m p i : wf_grid m -> wf_grid (store m p (open_connection i)).
Proof.
  intros H. apply wf_store; [done|]. intros c. simpl. by rewrite length_insert.
Qed.

Lemma deref_maze_init p :
  in_grid p ->
  deref (maze_init num_cols num_rows) p =
  Some (mkCell (Z.of_nat p.2, Z.of_nat p.1) false [false; false; false; false]).
Proof.
  intros [Hr Hc]. unfold deref, maze_init, py_range.
  rewrite list_lookup_fmap, lookup_seqZ_lt by lia. simpl.
  rewrite list_lookup_fmap, lookup_seqZ_lt by lia. simpl.
  do 2 f_equal; lia.
Qed.

Lemma wf_maze_init : wf_grid (maze_init num_cols num_rows).
Proof.
  split; [|split].
  - unfold maze_init, py_range. by rewrite length_fmap, length_seqZ.
  - intros r row. unfold maze_init, py_range. rewrite list_lookup_fmap.
    destruct (seqZ 0 num_rows !! r); simpl; [|done].
    intros [= <-]. by rewrite length_fmap, length_seqZ.
  - intros p c Hc.
    assert (Hin : in_grid p).
    { unfold deref, maze_init, py_range in Hc.
      rewrite list_lookup_fmap in Hc.
      destruct (seqZ 0 num_rows !! p.1) eqn:Hr; simpl in Hc; [|done].
      rewrite list_lookup_fmap in Hc.
      destruct (seqZ 0 num_cols !! p.2) eqn:Hcol; simpl in Hc; [|done].
      apply lookup_seqZ in Hr. apply lookup_seqZ in Hcol. split; lia. }
    rewrite deref_maze_init in Hc by done. by inversion Hc.
Qed.

Lemma subscript2_in_range m i j :
  wf_grid m -> 0 <= i < num_rows -> 0 <= j < num_cols ->
  subscript2 m i j = Ok (Z.to_nat i, Z.to_nat j).
Proof.
  intros (Hlen & Hrows & _) Hi Hj. unfold subscript2.
  rewrite norm_index_in_range by lia. simpl.
  destruct (lookup_lt_is_Some_2 m (Z.to_nat i)) as [row Hrow]; [lia|].
  rewrite Hrow. rewrite norm_index_in_range; [done|].
  rewrite (Hrows _ _ Hrow). lia.
Qed.

(** *** The direction table *)

Lemma md_cases dd :
  dd ∈ md ->
  dd = mkDir (NORTH, SOUTH) (0, -1) (fun x y => 0 <? y) \/
  dd = mkDir (EAST, WEST) (1, 0) (fun x y => x <? num_cols - 1) \/
  dd = mkDir (SOUTH, NORTH) (0, 1) (fun x y => y <? num_rows - 1) \/
  dd = mkDir (WEST, EAST) (-1, 0) (fun x y => 0 <? x).
Proof.
  unfold directional_metadata. rewrite !elem_of_cons, elem_of_nil. tauto.
Qed.

Lemma leads_in_grid dd a :
  in_grid a -> leads dd a -> in_grid (nbr a dd) /\ nbr a dd <> a.
Proof.
  intros [Hr Hc] [Hdd Hb]. destruct a as [r c]. simpl in *.
  apply md_cases in Hdd as [-> | [-> | [-> | ->]]]; unfold nbr, in_grid; simpl in *;
    (split; [split; lia | intros [= ? ?]; lia]).
Qed.

Lemma leads_adjacent m dd a :
  wf_grid m -> in_grid a -> leads dd a ->
  get_adjacent_cell m (Z.of_nat a.2, Z.of_nat a.1) (dd_delta dd) = Ok (nbr a dd).
Proof.
  intros Hwf [Hr Hc] [Hdd Hb]. destruct a as [r c]. simpl in *.
  unfold get_adjacent_cell, nbr. simpl.
  apply md_cases in Hdd as [-> | [-> | [-> | ->]]]; simpl in *;
    apply subscript2_in_range; try done; lia.
Qed.

(** The opposite entry leads back. *)
Lemma leads_back dd a :
  in_grid a -> leads dd a ->
  exists dd', leads dd' (nbr a dd) /\ nbr (nbr a dd) dd' = a /\
              (dd_ids dd').1 = (dd_ids dd).2 /\ (dd_ids dd').2 = (dd_ids dd).1.
Proof.
  intros [Hr Hc] [Hdd Hb]. destruct a as [r c]. simpl in *.
  apply md_cases in Hdd as [-> | [-> | [-> | ->]]]; simpl in *.
  - exists (mkDir (SOUTH, NORTH) (0, 1) (fun x y => y <? num_rows - 1)).
    unfold leads, nbr, directional_metadata; simpl.
    repeat split; [set_solver | apply Z.ltb_lt in Hb; apply Z.ltb_lt; lia | f_equal; lia].
  - exists (mkDir (WEST, EAST) (-1, 0) (fun x y => 0 <? x)).
    unfold leads, nbr, directional_metadata; simpl.
    repeat split; [set_solver | apply Z.ltb_lt in Hb; apply Z.ltb_lt; lia | f_equal; lia].
  - exists (mkDir (NORTH, SOUTH) (0, -1) (fun x y => 0 <? y)).
    unfold leads, nbr, directional_metadata; simpl.
    repeat split; [set_solver | apply Z.ltb_lt in Hb; apply Z.ltb_lt; lia | f_equal; lia].
  - exists (mkDir (EAST, WEST) (1, 0) (fun x y => x <? num_cols - 1)).
    unfold leads, nbr, directional_metadata; simpl.
    repeat split; [set_solver | apply Z.ltb_lt in Hb; apply Z.ltb_lt; lia | f_equal; lia].
Qed.

Lemma md_id_inj dd dd' :
  dd ∈ md -> dd' ∈ md -> (dd_ids dd).1 = (dd_ids dd').1 -> dd = dd'.
Proof.
  intros H H'.
  apply md_cases in H as [-> | [-> | [-> | ->]]];
    apply md_cases in H' as [-> | [-> | [-> | ->]]]; simpl; intros; done.
Qed.

Lemma md_id_lt dd : dd ∈ md -> ((dd_ids dd).1 < 4 /\ (dd_ids dd).2 < 4)%nat.
Proof.
  intros H. apply md_cases in H as [-> | [-> | [-> | ->]]]; simpl;
    unfold NORTH, EAST, SOUTH, WEST; lia.
Qed.

Lemma md_id_opposite dd : dd ∈ md -> (dd_ids dd).1 <> (dd_ids dd).2.
Proof.
  intros H. apply md_cases in H as [-> | [-> | [-> | ->]]]; simpl; done.
Qed.

Lemma nbr_inj dd dd' a :
  dd ∈ md -> dd' ∈ md -> in_grid a ->
  dd_bounds dd (Z.of_nat a.2) (Z.of_nat a.1) = true ->
  dd_bounds dd' (Z.of_nat a.2) (Z.of_nat a.1) = true ->
  nbr a dd = nbr a dd' -> dd = dd'.
Proof.
  intros H H' [Hr Hc] Hb Hb'. destruct a as [r c]. 
  apply md_cases in H as [-> | [-> | [-> | ->]]];
    apply md_cases in H' as [-> | [-> | [-> | ->]]]; try done;
    unfold nbr; simpl in *; intros Heq; inversion Heq; lia.
Qed.

(** *** One iteration *)

Variable rnd : nat -> Z.

Local Abbreviation frontier := (frontier num_cols num_rows).

Lemma load_deref m p c : deref m p = Some c -> load m p = Ok c.
Proof. intros H. unfold load. by rewrite H. Qed.

Lemma frontier_leads m a dd :
  dd ∈ frontier m a -> leads dd a /\ vis m (nbr a dd) = false.
Proof.
  unfold frontier. rewrite list_elem_of_In, filter_In, <- list_elem_of_In.
  intros [Hdd Hb]. apply andb_true_iff in Hb as [Hb Hv].
  apply negb_true_iff in Hv. by repeat split.
Qed.

Lemma leads_frontier m a dd :
  leads dd a -> vis m (nbr a dd) = false -> dd ∈ frontier m a.
Proof.
  intros [Hdd Hb] Hv. unfold frontier.
  rewrite list_elem_of_In, filter_In, <- list_elem_of_In.
  split; [done|]. by rewrite Hb, Hv.
Qed.

Lemma unvisited_neighbours_spec m a dds :
  wf_grid m -> in_grid a ->
  (forall dd, dd ∈ dds -> dd ∈ md) ->
  unvisited_neighbours m (Z.of_nat a.2, Z.of_nat a.1) dds =
  Ok (List.filter
        (fun dd => dd_bounds dd (Z.of_nat a.2) (Z.of_nat a.1) && negb (vis m (nbr a dd)))
        dds).
Proof.
  intros Hwf Ha. induction dds as [|dd dds IH]; intros Hsub; [done|].
  simpl. rewrite IH by (intros; apply Hsub; by apply list_elem_of_further).
  destruct (dd_bounds dd (Z.of_nat a.2) (Z.of_nat a.1)) eqn:Hb; simpl; [|done].
  assert (Hl : leads dd a) by (split; [apply Hsub, list_elem_of_here | done]).
  rewrite (leads_adjacent m dd a Hwf Ha Hl). simpl.
  destruct (wf_deref m (nbr a dd) Hwf) as [c Hc]; [by apply leads_in_grid|].
  rewrite (load_deref _ _ _ Hc). simpl. unfold vis. by rewrite Hc.
Qed.

Lemma assign_connection_ok m p i :
  wf_grid m -> in_grid p -> (i < 4)%nat ->
  assign_connection m p i = Ok (store m p (open_connection i)).
Proof.
  intros Hwf Hp Hi. unfold assign_connection.
  destruct (wf_deref m p Hwf Hp) as [c Hc]. rewrite (load_deref _ _ _ Hc). simpl.
  destruct Hwf as (_ & _ & Hcells). destruct (Hcells _ _ Hc) as [_ ->].
  destruct (i <? 4)%nat eqn:H; [done|]. apply Nat.ltb_ge in H. lia.
Qed.

Lemma choice_ok {A : Type} (a : A) l k :
  choice rnd (a :: l) k =
  Ok (nth (Z.to_nat (rnd k mod Z.of_nat (length (a :: l)))) (a :: l) a).
Proof.
  unfold choice, randbelow.
  destruct (Z.of_nat (length (a :: l)) <=? 0) eqn:H; [|done].
  apply Z.leb_le in H. simpl in H. lia.
Qed.

Lemma choice_in {A : Type} (l : list A) k x :
  choice rnd l k = Ok x -> x ∈ l.
Proof.
  destruct l as [|a l]; [done|]. rewrite choice_ok.
  remember (a :: l) as l' eqn:Hl'. intros Heq.
  assert (Hx : x = nth (Z.to_nat (rnd k mod Z.of_nat (length l'))) l' a) by congruence.
  rewrite Hx. apply list_elem_of_In, nth_In.
  assert (0 < Z.of_nat (length l')) by (rewrite Hl'; simpl; lia).
  pose proof (Z.mod_pos_bound (rnd k) (Z.of_nat (length l')) H). lia.
Qed.

(** What an iteration does, on a well-formed grid. *)
Lemma loop_body_spec st :
  wf_grid (maze st) -> in_grid (current_cell st) ->
  loop_body num_cols num_rows rnd st =
  match frontier (maze st) (current_cell st) with
  | [] =>
      match visited_stack st with
      | [] => Raise IndexError
      | top :: rest => Ok (backtrack st top rest)
      end
  | a :: l =>
      Ok (advance st
            (nth (Z.to_nat (rnd (draws st) mod Z.of_nat (length (a :: l)))) (a :: l) a))
  end.
Proof.
  intros Hwf Hcur. unfold loop_body.
  destruct (wf_deref _ _ Hwf Hcur) as [c Hc].
  rewrite (load_deref _ _ _ Hc). rewrite bind_Ok; cbv beta.
  assert (Hcoords : coords c = (Z.of_nat (current_cell st).2, Z.of_nat (current_cell st).1)).
  { destruct Hwf as (_ & _ & Hcells). by destruct (Hcells _ _ Hc). }
  rewrite Hcoords.
  rewrite (unvisited_neighbours_spec _ _ _ Hwf Hcur) by done. rewrite bind_Ok; cbv beta.
  fold (frontier (maze st) (current_cell st)).
  destruct (frontier (maze st) (current_cell st)) as [|a l] eqn:Hf; [done|].
  rewrite choice_ok. rewrite bind_Ok; cbv beta.
  set (ch := nth _ (a :: l) a).
  assert (Hch : ch ∈ frontier (maze st) (current_cell st)).
  { rewrite Hf. apply (choice_in _ (draws st)). apply choice_ok. }
  apply frontier_leads in Hch as [Hl Hv].
  destruct (md_id_lt ch (proj1 Hl)) as [Hi1 Hi2].
  rewrite (assign_connection_ok _ _ _ Hwf Hcur Hi1). rewrite bind_Ok; cbv beta.
  rewrite (leads_adjacent _ ch _ (wf_store_open _ _ _ Hwf) Hcur Hl). rewrite bind_Ok; cbv beta.
  rewrite assign_connection_ok;
    [|by apply wf_store_open | by apply leads_in_grid | done].
  done.
Qed.

End GridFacts.

(** ** Counting flags over a list of references *)

Lemma filter_all_false {A : Type} (f : A -> bool) l :
  (forall x, x ∈ l -> f x = false) -> List.filter f l = [].
Proof.
  induction l as [|a l IH]; intros H; [done|]. simpl.
  rewrite (H a) by apply list_elem_of_here.
  apply IH. intros x Hx. apply H. by apply list_elem_of_further.
Qed.

Lemma filter_agree {A : Type} (f g : A -> bool) l :
  (forall x, x ∈ l -> g x = f x) -> List.filter g l = List.filter f l.
Proof.
  induction l as [|a l IH]; intros H; [done|]. simpl.
  rewrite (H a) by apply list_elem_of_here.
  rewrite IH; [done|]. intros x Hx. apply H. by apply list_elem_of_further.
Qed.

(** Raising one flag from false to true adds one to the count. *)
Lemma filter_flip {A : Type} (f g : A -> bool) l x :
  NoDup l -> x ∈ l -> f x = false -> g x = true ->
  (forall y, y ∈ l -> y <> x -> g y = f y) ->
  length (List.filter g l) = S (length (List.filter f l)).
Proof.
  induction l as [|a l IH]; intros Hnd Hx Hf Hg Hrest.
  - by apply elem_of_nil in Hx.
  - apply NoDup_cons in Hnd as [Ha Hnd]. simpl.
    apply elem_of_cons in Hx as [->|Hx].
    + rewrite Hf, Hg. simpl. f_equal. f_equal. apply filter_agree.
      intros y Hy. apply Hrest; [by apply list_elem_of_further|].
      intros ->. done.
    + assert (Hax : a <> x) by (intros ->; done).
      rewrite (Hrest a) by (done || apply list_elem_of_here).
      assert (IH' : length (List.filter g l) = S (length (List.filter f l))).
      { apply IH; try done. intros y Hy. apply Hrest. by apply list_elem_of_further. }
      destruct (f a); simpl; lia.
Qed.

Section WalkFacts.

Variables num_cols num_rows : Z.
Variable rnd : nat -> Z.

Local Abbreviation md := (directional_metadata num_cols num_rows).
Local Abbreviation in_grid := (in_grid num_cols num_rows).
Local Abbreviation wf_grid := (wf_grid num_cols num_rows).
Local Abbreviation leads := (leads num_cols num_rows).
Local Abbreviation frontier := (frontier num_cols num_rows).
Local Abbreviation all_refs := (all_refs num_cols num_rows).
Local Abbreviation walk_inv := (walk_inv num_cols num_rows).
Local Abbreviation reachable := (reachable num_cols num_rows rnd).

Lemma elem_of_all_refs p : p ∈ all_refs <-> in_grid p.
Proof.
  unfold all_refs, in_grid. rewrite list_elem_of_bind. split.
  - intros (r & Hp & Hr). apply list_elem_of_fmap in Hp as (c & -> & Hc).
    apply elem_of_seq in Hr. apply elem_of_seq in Hc. simpl. lia.
  - intros [Hr Hc]. exists p.1. split.
    + apply list_elem_of_fmap. exists p.2. split; [by destruct p|].
      apply elem_of_seq. lia.
    + apply elem_of_seq. lia.
Qed.

Lemma NoDup_all_refs : NoDup all_refs.
Proof.
  unfold all_refs. apply NoDup_bind.
  - intros r1 r2 p _ _ H1 H2.
    apply list_elem_of_fmap in H1 as (c1 & -> & _).
    apply list_elem_of_fmap in H2 as (c2 & Heq & _). by inversion Heq.
  - intros r _. apply NoDup_fmap_2; [|apply NoDup_seq].
    intros c1 c2 Heq. by inversion Heq.
  - apply NoDup_seq.
Qed.

Lemma length_all_refs :
  length all_refs = (Z.to_nat num_rows * Z.to_nat num_cols)%nat.
Proof.
  assert (H : forall R k,
             length (seq k R ≫=
                       (fun r => (fun c => (r, c)) <$> seq 0 (Z.to_nat num_cols))) =
             (R * Z.to_nat num_cols)%nat).
  { induction R as [|R IH]; intros k; [done|].
    simpl. rewrite length_app, length_fmap, length_seq. f_equal. apply IH. }
  apply H.
Qed.

(** *** The grid after a passage is opened *)

Lemma vis_open_passage m a dd p :
  wf_grid m -> in_grid (nbr a dd) ->
  vis (open_passage m a dd) p =
  if decide (nbr a dd = p) then true else vis m p.
Proof.
  intros Hwf Hq. unfold open_passage.
  rewrite vis_store_visited.
  - destruct (decide (nbr a dd = p)); [done|]. by rewrite !vis_store_open.
  - apply (wf_deref num_cols num_rows); [|done]. by do 2 apply wf_store_open.
Qed.

Lemma conn_open_passage m a dd p i :
  wf_grid m -> in_grid a -> in_grid (nbr a dd) -> dd ∈ md ->
  conn (open_passage m a dd) p i =
  if decide (nbr a dd = p /\ (dd_ids dd).2 = i) then true
  else if decide (a = p /\ (dd_ids dd).1 = i) then true
  else conn m p i.
Proof.
  intros Hwf Ha Hq Hdd. unfold open_passage, assign_visited.
  rewrite conn_store_visited.
  destruct (md_id_lt num_cols num_rows dd Hdd) as [Hi1 Hi2].
  assert (Hwf1 := wf_store_open num_cols num_rows m a (dd_ids dd).1 Hwf).
  destruct (wf_deref _ _ _ _ Hwf1 Hq) as [c1 Hc1].
  destruct (wf_deref _ _ _ _ Hwf Ha) as [c Hc].
  rewrite (conn_store_open _ _ _ _ _ c1 Hc1).
  2:{ destruct Hwf1 as (_ & _ & Hcells). destruct (Hcells _ _ Hc1) as [_ ->]. done. }
  destruct (decide (nbr a dd = p /\ (dd_ids dd).2 = i)); [done|].
  apply (conn_store_open _ _ _ _ _ c Hc).
  destruct Hwf as (_ & _ & Hcells). destruct (Hcells _ _ Hc) as [_ ->]. done.
Qed.


(** *** The invariant holds initially *)

Lemma norm_index_lt len i r : norm_index len i = Ok r -> (r < len)%nat.
Proof.
  unfold norm_index.
  destruct ((0 <=? i) && (i <? Z.of_nat len)) eqn:H1.
  - apply andb_true_iff in H1 as [H0 H1]. intros [= <-]. lia.
  - destruct ((i <? 0) && (- Z.of_nat len <=? i)) eqn:H2; [|done].
    apply andb_true_iff in H2 as [H2 H3]. intros [= <-]. lia.
Qed.

Lemma subscript2_deref m i j p : subscript2 m i j = Ok p -> is_Some (deref m p).
Proof.
  unfold subscript2.
  destruct (norm_index (length m) i) as [r|] eqn:Hr; [|done].
  rewrite bind_Ok. destruct (m !! r) as [row|] eqn:Hrow; [|done].
  destruct (norm_index (length row) j) as [c|] eqn:Hc; [|done].
  rewrite bind_Ok. intros [= <-]. unfold deref. simpl. rewrite Hrow.
  apply lookup_lt_is_Some_2. by eapply norm_index_lt.
Qed.

Lemma vis_maze_init p : vis (maze_init num_cols num_rows) p = false.
Proof.
  unfold vis. destruct (deref (maze_init num_cols num_rows) p) as [c|] eqn:Hc; [|done].
  assert (Hin := deref_in_grid _ _ _ _ _ (wf_maze_init num_cols num_rows) Hc).
  rewrite deref_maze_init in Hc by done. by inversion Hc.
Qed.

Lemma conn_maze_init p i : conn (maze_init num_cols num_rows) p i = false.
Proof.
  unfold conn. destruct (deref (maze_init num_cols num_rows) p) as [c|] eqn:Hc; [|done].
  assert (Hin := deref_in_grid _ _ _ _ _ (wf_maze_init num_cols num_rows) Hc).
  rewrite deref_maze_init in Hc by done. inversion Hc; subst; simpl.
  by do 5 (destruct i as [|i]; [done|]).
Qed.

Lemma initial_state_shape st :
  initial_state num_cols num_rows rnd = Ok st ->
  exists s, in_grid s /\
    st = mkState (assign_visited (maze_init num_cols num_rows) s) s None s [s] 1 1 1 1.
Proof.
  unfold initial_state.
  destruct (randbelow rnd (num_rows * num_cols) 0) as [r|]; [|done].
  rewrite bind_Ok.
  destruct (select_start num_cols num_rows r) as [s|] eqn:Hs; [|done].
  rewrite bind_Ok. intros [= <-]. exists s. split; [|done].
  apply subscript2_deref in Hs as [c Hc].
  by eapply deref_in_grid; [apply wf_maze_init|].
Qed.

Lemma num_passages_zero m :
  (forall p i, conn m p i = false) -> num_passages num_cols num_rows m = 0%nat.
Proof.
  intros H. unfold num_passages.
  rewrite !filter_all_false; [done| |].
  - intros p _. unfold east_open. by rewrite H, andb_false_r.
  - intros p _. unfold south_open. by rewrite H, andb_false_r.
Qed.

Lemma walk_inv_init st :
  initial_state num_cols num_rows rnd = Ok st -> walk_inv st [start_cell st] [].
Proof.
  intros Hst. apply initial_state_shape in Hst as (s & Hs & ->). simpl.
  assert (Hwf := wf_maze_init num_cols num_rows).
  assert (Hde := wf_deref _ _ _ _ Hwf Hs).
  split; simpl.
  - by apply wf_assign_visited.
  - constructor.
  - by intros p ->%list_elem_of_singleton.
  - intros p. rewrite vis_store_visited by done. rewrite list_elem_of_singleton.
    destruct (decide (s = p)); [done|]. rewrite vis_maze_init. split; [done|congruence].
  - intros a dd _ _. unfold assign_visited. rewrite conn_store_visited, conn_maze_init.
    split; [done|]. intros [_ [H|H]]; by apply elem_of_nil in H.
  - intros a b H. by apply elem_of_nil in H.
  - apply list_elem_of_here.
  - done.
  - done.
  - apply num_passages_zero. intros p i.
    unfold assign_visited. by rewrite conn_store_visited, conn_maze_init.
  - done.
  - done.
  - done.
Qed.


(** *** Opening a passage adds exactly one *)

Lemma flag_count_same (B : ref -> bool) i m m' :
  (forall p, conn m' p i = conn m p i) ->
  length (List.filter (fun p => B p && conn m' p i) all_refs) =
  length (List.filter (fun p => B p && conn m p i) all_refs).
Proof.
  intros H. f_equal. apply filter_agree. intros p _. by rewrite H.
Qed.

Lemma flag_count_flip (B : ref -> bool) i m m' x :
  in_grid x -> B x = true -> conn m x i = false -> conn m' x i = true ->
  (forall p, p <> x -> conn m' p i = conn m p i) ->
  length (List.filter (fun p => B p && conn m' p i) all_refs) =
  S (length (List.filter (fun p => B p && conn m p i) all_refs)).
Proof.
  intros Hx HB Hm Hm' Hrest. apply filter_flip with x.
  - apply NoDup_all_refs.
  - by apply elem_of_all_refs.
  - by rewrite Hm, andb_false_r.
  - by rewrite HB, Hm'.
  - intros p _ Hp. by rewrite Hrest.
Qed.

Lemma num_passages_open m a dd :
  wf_grid m -> in_grid a -> leads dd a ->
  conn m a (dd_ids dd).1 = false ->
  conn m (nbr a dd) (dd_ids dd).2 = false ->
  num_passages num_cols num_rows (open_passage m a dd) =
  S (num_passages num_cols num_rows m).
Proof.
  intros Hwf Ha Hl Hca Hcq.
  destruct (leads_in_grid _ _ _ _ Ha Hl) as [Hq Hqa].
  destruct Hl as [Hdd Hb].
  assert (Hconn := fun p i => conn_open_passage m a dd p i Hwf Ha Hq Hdd).
  unfold num_passages, south_open, east_open.
  destruct Ha as [Har Hac]. destruct a as [r c]. simpl in *.
  apply md_cases in Hdd as [-> | [-> | [-> | ->]]]; simpl in *;
    apply Z.ltb_lt in Hb.
  - (* north: the SOUTH flag of the new cell *)
    rewrite (flag_count_flip _ SOUTH m _
               (nbr (r, c) (mkDir (NORTH, SOUTH) (0, -1) (fun x y => 0 <? y))));
      [ | done | unfold nbr; simpl; apply Z.ltb_lt; lia | done
        | rewrite Hconn; by rewrite decide_True
        | intros p Hp; rewrite Hconn; repeat case_decide; destruct_and?; done ].
    rewrite (flag_count_same _ EAST m); [done|].
    intros p. rewrite Hconn. by repeat case_decide; destruct_and?.
  - (* east: the EAST flag of the current cell *)
    rewrite (flag_count_flip _ EAST m _ (r, c));
      [ | split; simpl; lia | by apply Z.ltb_lt | done
        | rewrite Hconn; repeat case_decide; try done; exfalso; tauto
        | intros p Hp; rewrite Hconn; repeat case_decide; destruct_and?; done ].
    rewrite (flag_count_same _ SOUTH m); [lia|].
    intros p. rewrite Hconn. by repeat case_decide; destruct_and?.
  - (* south: the SOUTH flag of the current cell *)
    rewrite (flag_count_flip _ SOUTH m _ (r, c));
      [ | split; simpl; lia | by apply Z.ltb_lt | done
        | rewrite Hconn; repeat case_decide; try done; exfalso; tauto
        | intros p Hp; rewrite Hconn; repeat case_decide; destruct_and?; done ].
    rewrite (flag_count_same _ EAST m); [done|].
    intros p. rewrite Hconn. by repeat case_decide; destruct_and?.
  - (* west: the EAST flag of the new cell *)
    rewrite (flag_count_flip _ EAST m _
               (nbr (r, c) (mkDir (WEST, EAST) (-1, 0) (fun x y => 0 <? x))));
      [ | done | unfold nbr; simpl; apply Z.ltb_lt; lia | done
        | rewrite Hconn; by rewrite decide_True
        | intros p Hp; rewrite Hconn; repeat case_decide; destruct_and?; done ].
    rewrite (flag_count_same _ SOUTH m); [lia|].
    intros p. rewrite Hconn. by repeat case_decide; destruct_and?.
Qed.


(** *** The invariant is kept by every iteration *)

Lemma exists_lead s :
  in_grid s -> num_cols * num_rows <> 1 -> exists dd, leads dd s.
Proof.
  intros [Hr Hc] HN. destruct s as [r c]. simpl in *.
  destruct (Z_lt_dec (Z.of_nat c) (num_cols - 1)) as [H1|H1].
  { exists (mkDir (EAST, WEST) (1, 0) (fun x y => x <? num_cols - 1)).
    split; [set_solver|]. simpl. by apply Z.ltb_lt. }
  destruct (Z_lt_dec 0 (Z.of_nat c)) as [H2|H2].
  { exists (mkDir (WEST, EAST) (-1, 0) (fun x y => 0 <? x)).
    split; [set_solver|]. simpl. by apply Z.ltb_lt. }
  destruct (Z_lt_dec (Z.of_nat r) (num_rows - 1)) as [H3|H3].
  { exists (mkDir (SOUTH, NORTH) (0, 1) (fun x y => y <? num_rows - 1)).
    split; [set_solver|]. simpl. by apply Z.ltb_lt. }
  destruct (Z_lt_dec 0 (Z.of_nat r)) as [H4|H4].
  { exists (mkDir (NORTH, SOUTH) (0, -1) (fun x y => 0 <? y)).
    split; [set_solver|]. simpl. by apply Z.ltb_lt. }
  exfalso. apply HN. assert (num_cols = 1) by lia. assert (num_rows = 1) by lia.
  subst. done.
Qed.

Lemma walk_inv_backtrack st V E top rest :
  walk_inv st V E -> visited_stack st = top :: rest ->
  end_cell st <> None ->
  walk_inv (backtrack st top rest) V E.
Proof.
  intros [] Hstack Hend. split; simpl; try done.
  - apply inv_stack0. rewrite Hstack. apply list_elem_of_here.
  - intros p Hp. apply inv_stack0. rewrite Hstack. by apply list_elem_of_further.
  - rewrite inv_cpl0, Hstack. simpl. lia.
  - lia.
  - by destruct (end_cell st).
Qed.

Lemma walk_inv_advance st V E dd :
  walk_inv st V E -> dd ∈ frontier (maze st) (current_cell st) ->
  walk_inv (advance st dd)
    (nbr (current_cell st) dd :: V)
    ((current_cell st, nbr (current_cell st) dd) :: E).
Proof.
  intros Hinv Hdd. destruct Hinv.
  destruct st as [m s e a stk cpl lng n d]. unfold advance. simpl in *.
  set (q := nbr a dd) in *.
  assert (Ha : in_grid a) by (by apply inv_in_grid0).
  apply frontier_leads in Hdd as [Hl Hv].
  destruct (leads_in_grid _ _ _ _ Ha Hl) as [Hq Hqa]. fold q in Hq, Hqa.
  assert (HqV : q ∉ V).
  { intros H. apply inv_vis0 in H. fold q in Hv. congruence. }
  assert (HnoE : forall x, ~ adj E q x /\ ~ adj E x q).
  { intros x. split; intros H; apply (grown_adj_in _ _ _ _ _ inv_grown0) in H; tauto. }
  destruct (leads_back _ _ _ _ Ha Hl) as (dd' & Hl' & Hback & Hid1 & Hid2).
  fold q in Hl', Hback.
  split; simpl.
  - unfold open_passage. by apply wf_assign_visited; do 2 apply wf_store_open.
  - by constructor.
  - intros p [->|Hp]%elem_of_cons; [done | by apply inv_in_grid0].
  - intros p. rewrite vis_open_passage by done. fold q.
    rewrite elem_of_cons. destruct (decide (q = p)) as [->|Hne].
    + tauto.
    + rewrite inv_vis0. split; [tauto|]. intros [->|H]; done.
  - intros x dx Hx Hdx.
    rewrite conn_open_passage by (done || apply Hl). fold q.
    rewrite adj_cons.
    destruct (decide (q = x /\ (dd_ids dd).2 = (dd_ids dx).1)) as [[<- Hid]|Hn1].
    { assert (dx = dd') as ->.
      { apply (md_id_inj num_cols num_rows); [done | apply Hl' | congruence]. }
      split; [|done]. intros _. split; [apply Hl'|]. rewrite Hback. tauto. }
    destruct (decide (a = x /\ (dd_ids dd).1 = (dd_ids dx).1)) as [[<- Hid]|Hn2].
    { assert (dx = dd) as ->.
      { apply (md_id_inj num_cols num_rows); [done | apply Hl | congruence]. }
      split; [|done]. intros _. split; [apply Hl|]. fold q. tauto. }
    rewrite inv_conn0 by done. split.
    + intros [Hb Hadj]. tauto.
    + intros [Hb [[-> Hnb]|[[-> Hnb]|Hadj]]]; [| |done].
      * exfalso. apply Hn2. split; [done|].
        assert (dx = dd) as ->; [|done].
        apply (nbr_inj num_cols num_rows _ _ a); try done; apply Hl.
      * exfalso. apply Hn1. split; [done|]. rewrite <- Hid1.
        assert (dx = dd') as ->; [|done].
        apply (nbr_inj num_cols num_rows _ _ q); try done; [apply Hl' | apply Hl' | congruence].
  - intros x y [[= -> ->]|H]%elem_of_cons.
    + split; [done|]. by exists dd.
    + by apply inv_edges0.
  - apply list_elem_of_here.
  - intros p [->|Hp]%elem_of_cons; [apply list_elem_of_here|].
    apply list_elem_of_further. by apply inv_stack0.
  - rewrite inv_count0. lia.
  - rewrite num_passages_open, inv_passages0; try done.
    + destruct (conn m a (dd_ids dd).1) eqn:Hc; [|done].
      apply inv_conn0 in Hc as [_ Hc]; [|done|apply Hl].
      fold q in Hc. apply (grown_adj_in _ _ _ _ _ inv_grown0) in Hc. tauto.
    + fold q. rewrite <- Hid1.
      destruct (conn m q (dd_ids dd').1) eqn:Hc; [|done].
      apply inv_conn0 in Hc as [_ Hc]; [|done|apply Hl'].
      apply (grown_adj_in _ _ _ _ _ inv_grown0) in Hc. tauto.
  - rewrite inv_cpl0. lia.
  - destruct (lng <? cpl + 1) eqn:Hlt; [lia|].
    apply Z.ltb_ge in Hlt. lia.
  - assert (Hs : s ∈ V) by (by eapply grown_root_in).
    destruct (lng <? cpl + 1) eqn:Hlt.
    + split; [apply list_elem_of_here|]. intros ->. done.
    + apply Z.ltb_ge in Hlt. destruct e as [e|].
      * destruct inv_end0. split; [by apply list_elem_of_further | done].
      * lia.
Qed.

Lemma walk_inv_step st V E st' :
  walk_inv st V E ->
  nVisited st <> num_cols * num_rows ->
  loop_body num_cols num_rows rnd st = Ok st' ->
  exists V' E', walk_inv st' V' E'.
Proof.
  intros Hinv HN Hbody.
  assert (Hcur : in_grid (current_cell st)).
  { apply (inv_in_grid _ _ _ _ _ Hinv), (inv_cur _ _ _ _ _ Hinv). }
  rewrite loop_body_spec in Hbody by (done || apply Hinv).
  destruct (frontier (maze st) (current_cell st)) as [|d l] eqn:Hf.
  - destruct (visited_stack st) as [|top rest] eqn:Hstack; [done|].
    inversion Hbody; subst st'. exists V, E.
    apply walk_inv_backtrack; [done..|].
    intros Hnone. pose proof (inv_end _ _ _ _ _ Hinv) as He. rewrite Hnone in He.
    destruct He as (HV & _ & _ & Hc).
    assert (HN' : num_cols * num_rows <> 1).
    { rewrite (inv_count _ _ _ _ _ Hinv), HV in HN. simpl in HN. lia. }
    destruct (exists_lead _ Hcur HN') as [dd Hl].
    assert (Hin : dd ∈ frontier (maze st) (current_cell st)).
    { apply leads_frontier; [done|].
      destruct (vis (maze st) (nbr (current_cell st) dd)) eqn:Hv; [|done].
      apply (inv_vis _ _ _ _ _ Hinv) in Hv. rewrite HV in Hv.
      apply list_elem_of_singleton in Hv.
      destruct (leads_in_grid _ _ _ _ Hcur Hl) as [_ Hne]. congruence. }
    rewrite Hf in Hin. by apply elem_of_nil in Hin.
  - inversion Hbody; subst st'. eexists _, _.
    apply walk_inv_advance; [done|]. rewrite Hf.
    apply (choice_in rnd _ (draws st)). apply choice_ok.
Qed.

Lemma reachable_inv st : reachable st -> exists V E, walk_inv st V E.
Proof.
  induction 1 as [st Hst|st st' _ (V & E & Hinv) HN Hbody].
  - eexists _, _. by apply walk_inv_init.
  - by eapply walk_inv_step.
Qed.


(** *** The finished walk *)

Lemma while_loop_finished fuel st st' :
  reachable st ->
  while_loop num_cols num_rows rnd fuel st = Finished st' ->
  reachable st' /\ nVisited st' = num_cols * num_rows.
Proof.
  revert st. induction fuel as [|fuel IH]; intros st Hr; simpl.
  - destruct (nVisited st =? num_cols * num_rows) eqn:HN; [|done].
    intros [= <-]. split; [done | by apply Z.eqb_eq].
  - destruct (nVisited st =? num_cols * num_rows) eqn:HN.
    + intros [= <-]. split; [done | by apply Z.eqb_eq].
    + destruct (loop_body num_cols num_rows rnd st) as [st1|] eqn:Hb; [|done].
      apply IH. eapply reach_step; [done | by apply Z.eqb_neq | done].
Qed.

Lemma generate_finished fuel st :
  generate_directional_maze num_cols num_rows rnd fuel = Finished st ->
  reachable st /\ nVisited st = num_cols * num_rows.
Proof.
  unfold generate_directional_maze.
  destruct (initial_state num_cols num_rows rnd) as [st0|] eqn:H0; [|done].
  apply while_loop_finished. by constructor.
Qed.

Lemma iterations_reachable k st st' :
  reachable st -> iterations num_cols num_rows rnd k st = Ok st' -> reachable st'.
Proof.
  revert st. induction k as [|k IH]; intros st Hr; simpl.
  - by intros [= <-].
  - destruct (nVisited st =? num_cols * num_rows) eqn:HN; [by intros [= <-]|].
    destruct (loop_body num_cols num_rows rnd st) as [st1|] eqn:Hb; [|done].
    rewrite bind_Ok. apply IH.
    eapply reach_step; [done | by apply Z.eqb_neq | done].
Qed.

Lemma state_after_reachable k st :
  state_after num_cols num_rows rnd k = Ok st -> reachable st.
Proof.
  unfold state_after.
  destruct (initial_state num_cols num_rows rnd) as [st0|] eqn:H0; [|done].
  rewrite bind_Ok. apply iterations_reachable. by constructor.
Qed.

Lemma passage_adj st V E a b :
  walk_inv st V E -> passage num_cols num_rows (maze st) a b <-> adj E a b.
Proof.
  intros Hinv. split.
  - intros (Ha & dd & Hl & -> & Hc).
    by apply (inv_conn _ _ _ _ _ Hinv) in Hc as [_ Hc]; [|done|apply Hl].
  - intros [H|H].
    + destruct (inv_edges _ _ _ _ _ Hinv _ _ H) as (Ha & dd & Hl & ->).
      split; [done|]. exists dd. repeat split; [apply Hl..|].
      apply (inv_conn _ _ _ _ _ Hinv); [done | apply Hl |].
      split; [apply Hl | by left].
    + destruct (inv_edges _ _ _ _ _ Hinv _ _ H) as (Hb & dd & Hl & ->).
      destruct (leads_in_grid _ _ _ _ Hb Hl) as [Ha _].
      destruct (leads_back _ _ _ _ Hb Hl) as (dd' & Hl' & Hback & _).
      split; [done|]. exists dd'. repeat split; [apply Hl'.. | done |].
      apply (inv_conn _ _ _ _ _ Hinv); [done | apply Hl' |].
      split; [apply Hl'|]. rewrite Hback. by right.
Qed.


Lemma rtc_symmetric {A : Type} (R : A -> A -> Prop) a b :
  (forall x y, R x y -> R y x) -> rtc R a b -> rtc R b a.
Proof.
  intros Hsym. induction 1 as [|x y z Hxy _ IH]; [apply rtc_refl|].
  eapply rtc_r; [apply IH | by apply Hsym].
Qed.

Lemma chain_impl {A : Type} (R R' : A -> A -> Prop) l :
  (forall x y, R x y -> R' x y) -> chain R l -> chain R' l.
Proof.
  intros H. induction l as [|a [|b l] IH]; simpl; [done..|].
  intros [Hab Hc]. split; [by apply H | by apply IH].
Qed.

Lemma cycle_impl {A : Type} (R R' : A -> A -> Prop) l :
  (forall x y, R x y -> R' x y) -> cycle R l -> cycle R' l.
Proof.
  intros H (Hlen & Hnd & Hc & a & z & Hh & Hl & Hza).
  repeat split; [done..|by eapply chain_impl|]. exists a, z. auto.
Qed.

Lemma all_visited st V E :
  walk_inv st V E -> nVisited st = num_cols * num_rows ->
  forall p, in_grid p -> p ∈ V.
Proof.
  intros Hinv HN p Hp.
  assert (Hs : in_grid (start_cell st)).
  { apply (inv_in_grid _ _ _ _ _ Hinv). eapply grown_root_in, Hinv. }
  destruct Hs as [Hsr Hsc].
  assert (Hincl : incl all_refs V).
  { apply NoDup_length_incl.
    - apply NoDup_ListNoDup. eapply grown_NoDup, Hinv.
    - assert (HV : Z.of_nat (length V) = num_cols * num_rows).
      { rewrite <- HN. symmetry. apply Hinv. }
      apply (f_equal Z.to_nat) in HV. rewrite Nat2Z.id in HV.
      rewrite HV, length_all_refs, Z2Nat.inj_mul by lia. lia.
    - intros x Hx. apply list_elem_of_In, elem_of_all_refs, (inv_in_grid _ _ _ _ _ Hinv).
      by apply list_elem_of_In. }
  apply list_elem_of_In, Hincl, list_elem_of_In. by apply elem_of_all_refs.
Qed.

End WalkFacts.

(** * Facts about the layout arithmetic *)

Lemma wall_width_value : (wall_width == 120000 # 127)%Q.
Proof. reflexivity. Qed.

Lemma path_width_value : (path_width == 7500 # 127)%Q.
Proof. reflexivity. Qed.

Lemma a4_width_px_value : (a4_width_px == 315000 # 127)%Q.
Proof. reflexivity. Qed.

Lemma a4_height_px_value : (a4_height_px == 445500 # 127)%Q.
Proof. reflexivity. Qed.

Lemma inject_Z_lt_succ a b : a < b -> (inject_Z a + 1 <= inject_Z b)%Q.
Proof.
  intros H. assert (Hq : (inject_Z (a + 1) <= inject_Z b)%Q) by (unfold Qle; simpl; lia).
  rewrite inject_Z_plus in Hq. exact Hq.
Qed.

Lemma inject_Z_nonneg a : 0 <= a -> (0 <= inject_Z a)%Q.
Proof. intros H. unfold Qle; simpl; lia. Qed.

Lemma inject_Z_succ a : (inject_Z (a + 1) == inject_Z a + 1)%Q.
Proof. rewrite inject_Z_plus. reflexivity. Qed.

Lemma inject_Z_le a b : a <= b -> (inject_Z a <= inject_Z b)%Q.
Proof. intros H. unfold Qle; simpl; lia. Qed.

Lemma inject_Z_lt_inv a b : (inject_Z a < inject_Z b)%Q -> a < b.
Proof. unfold Qlt; simpl. lia. Qed.

Lemma py_round_a4_width : py_round a4_width_px = 2480.
Proof. vm_compute. reflexivity. Qed.

Lemma py_round_a4_height : py_round a4_height_px = 3508.
Proof. vm_compute. reflexivity. Qed.

(** [round] moves a number by at most a half. *)
Lemma py_round_near q :
  (q - (1 # 2) <= inject_Z (py_round q) /\ inject_Z (py_round q) <= q + (1 # 2))%Q.
Proof.
  unfold py_round. set (f := Qfloor q).
  assert (H1 : (inject_Z f <= q)%Q) by apply Qfloor_le.
  assert (H2 : (q < inject_Z (f + 1))%Q) by apply Qlt_floor.
  assert (H3 := inject_Z_succ f).
  destruct (Qcompare (q - inject_Z f) (1 # 2)) eqn:Hc.
  - apply Qeq_alt in Hc. destruct (Z.even f); split; lra.
  - apply Qlt_alt in Hc. split; lra.
  - apply Qgt_alt in Hc. split; lra.
Qed.

Lemma maze_edge_inside_canvas n :
  (maze_edge_x n + 828 < canvas_width n)%Q /\ (maze_edge_y n + 828 < canvas_height n)%Q.
Proof.
  unfold maze_edge_x, canvas_width, maze_edge_y, canvas_height, canvas_buffer.
  rewrite wall_width_value, path_width_value. split; lra.
Qed.

Lemma canvas_at_least n :
  0 <= n -> (885 <= canvas_width n)%Q /\ (885 <= canvas_height n)%Q.
Proof.
  intros Hn. assert (Hq := inject_Z_nonneg _ Hn).
  unfold canvas_width, canvas_height, canvas_buffer.
  rewrite wall_width_value, path_width_value. split; lra.
Qed.

Lemma elem_of_page_indices num_cols num_rows t :
  t ∈ page_indices num_cols num_rows <->
  0 <= t.1 < a4_pages_required_vertical num_rows /\
  0 <= t.2 < a4_pages_required_horizontal num_cols.
Proof.
  unfold page_indices. rewrite list_elem_of_bind. split.
  - intros (y & Ht & Hy). apply list_elem_of_bind in Ht as (x & Ht & Hx).
    apply list_elem_of_singleton in Ht as ->. simpl.
    apply elem_of_seqZ in Hx. apply elem_of_seqZ in Hy. lia.
  - intros [Hy Hx]. exists t.1. split; [|apply elem_of_seqZ; lia].
    apply list_elem_of_bind. exists t.2. split; [|apply elem_of_seqZ; lia].
    destruct t. apply list_elem_of_here.
Qed.

(** A pixel column of a tile's source rectangle is not beyond the maze
    content edge, or not beyond the end of the last but one page column. *)
Lemma slice_columns_bounded num_cols num_rows px py t :
  t ∈ page_indices num_cols num_rows ->
  in_slice num_cols num_rows px py t.1 t.2 ->
  (inject_Z px <= maze_edge_x num_cols \/
   inject_Z px <= inject_Z (a4_pages_required_horizontal num_cols - 1) * a4_width_px - 1)%Q.
Proof.
  intros Ht (_ & Hend & _). apply elem_of_page_indices in Ht as [_ Hx].
  unfold slice_end_x, is_last_page_x in Hend.
  destruct (t.2 =? a4_pages_required_horizontal num_cols - 1) eqn:Hl; simpl in Hend.
  - by left.
  - right. apply Z.eqb_neq in Hl.
    assert (Hle : (inject_Z (t.2 + 1) <= inject_Z (a4_pages_required_horizontal num_cols - 1))%Q)
      by (apply inject_Z_le; lia).
    set (a := inject_Z (t.2 + 1)) in *.
    set (b := inject_Z (a4_pages_required_horizontal num_cols - 1)) in *.
    rewrite a4_width_px_value in *. lra.
Qed.

(** * The claims about the walk *)

(** C1.  When generation on a [num_cols] by [num_rows] grid with at least
    one cell completes, every cell is marked visited and the open passages
    are a spanning tree of the grid: there are [num_cols * num_rows - 1] of
    them, any two cells are joined by a chain of open passages, and no
    simple cycle of open passages exists. *)
Theorem generation_spanning_tree num_cols num_rows rnd fuel st :
  1 <= num_cols * num_rows ->
  generate_directional_maze num_cols num_rows rnd fuel = Finished st ->
  (forall p, in_grid num_cols num_rows p -> vis (maze st) p = true) /\
  Z.of_nat (num_passages num_cols num_rows (maze st)) = num_cols * num_rows - 1 /\
  (forall a b, in_grid num_cols num_rows a -> in_grid num_cols num_rows b ->
     rtc (passage num_cols num_rows (maze st)) a b) /\
  (forall l, ~ cycle (passage num_cols num_rows (maze st)) l).
Proof.
  intros _ Hgen. apply generate_finished in Hgen as [Hr HN].
  apply reachable_inv in Hr as (V & E & Hinv).
  assert (Hall := all_visited _ _ _ _ _ Hinv HN).
  assert (Hg := inv_grown _ _ _ _ _ Hinv).
  pose proof (fun a b => passage_adj num_cols num_rows st V E a b Hinv) as Hiff.
  assert (Hpa : forall x y, adj E x y -> passage num_cols num_rows (maze st) x y).
  { intros x y. apply Hiff. }
  repeat split.
  - intros p Hp. apply (inv_vis _ _ _ _ _ Hinv). by apply Hall.
  - rewrite (inv_passages _ _ _ _ _ Hinv), <- HN, (inv_count _ _ _ _ _ Hinv).
    rewrite (grown_length _ _ _ Hg). lia.
  - intros a b Ha Hb. transitivity (start_cell st).
    + apply rtc_symmetric.
      * intros x y Hxy. apply Hpa, adj_sym. by apply Hiff.
      * eapply rtc_subrel; [apply Hpa|]. eapply grown_connected; [done | by apply Hall].
    + eapply rtc_subrel; [apply Hpa|]. eapply grown_connected; [done | by apply Hall].
  - intros l Hl. apply (grown_acyclic _ _ _ l Hg).
    eapply cycle_impl; [|done]. intros x y. apply Hiff.
Qed.

Lemma generation_spanning_tree_witness :
  exists st,
    generate_directional_maze 3 3 (fun k => Z.of_nat k) 20 = Finished st /\
    (forall p, in_grid 3 3 p -> vis (maze st) p = true) /\
    Z.of_nat (num_passages 3 3 (maze st)) = 3 * 3 - 1 /\
    (forall a b, in_grid 3 3 a -> in_grid 3 3 b -> rtc (passage 3 3 (maze st)) a b) /\
    (forall l, ~ cycle (passage 3 3 (maze st)) l).
Proof.
  eexists. split; [vm_compute; reflexivity|].
  apply (generation_spanning_tree 3 3 (fun k => Z.of_nat k) 20); [lia|].
  vm_compute; reflexivity.
Defined.



Lemma passage_open_neighbours num_cols num_rows m a b :
  passage num_cols num_rows m a b <->
  in_grid num_cols num_rows a /\ b ∈ open_neighbours num_cols num_rows m a.
Proof.
  unfold passage, open_neighbours, leads. split.
  - intros (Ha & dd & [Hdd Hb] & -> & Hc). split; [done|].
    apply list_elem_of_In, in_map, filter_In. split; [by apply list_elem_of_In|].
    by rewrite Hb, Hc.
  - intros [Ha Hb]. split; [done|].
    apply list_elem_of_In, in_map_iff in Hb as (dd & <- & Hdd).
    apply filter_In in Hdd as [Hdd Hb]. apply andb_true_iff in Hb as [Hb Hc].
    exists dd. by rewrite list_elem_of_In.
Qed.

(** The walk ends, one way or the other, within [2 * num_cols * num_rows]
    iterations: every iteration either visits a cell or shortens the
    stack. *)
Lemma while_loop_bounded num_cols num_rows rnd st fuel :
  reachable num_cols num_rows rnd st ->
  (2 * Z.to_nat (num_cols * num_rows - nVisited st) + length (visited_stack st) <= fuel)%nat ->
  while_loop num_cols num_rows rnd fuel st <> OutOfFuel.
Proof.
  revert st. induction fuel as [|fuel IH]; intros st Hr Hfuel; simpl.
  - destruct (nVisited st =? num_cols * num_rows) eqn:HN; [done|].
    apply Z.eqb_neq in HN.
    destruct (reachable_inv _ _ _ _ Hr) as (V & E & Hinv).
    assert (Hs : in_grid num_cols num_rows (start_cell st)).
    { apply (inv_in_grid _ _ _ _ _ Hinv). eapply grown_root_in, Hinv. }
    assert (HV : (length V <= length (all_refs num_cols num_rows))%nat).
    { apply NoDup_incl_length.
      - apply NoDup_ListNoDup. eapply grown_NoDup, Hinv.
      - intros x Hx. apply list_elem_of_In, elem_of_all_refs, (inv_in_grid _ _ _ _ _ Hinv).
        by apply list_elem_of_In. }
    rewrite length_all_refs in HV. destruct Hs as [Hs1 Hs2].
    pose proof (inv_count _ _ _ _ _ Hinv) as Hc.
    assert (Z.of_nat (Z.to_nat num_rows * Z.to_nat num_cols) = num_cols * num_rows)
      by (rewrite Nat2Z.inj_mul; lia).
    lia.
  - destruct (nVisited st =? num_cols * num_rows) eqn:HN; [done|].
    apply Z.eqb_neq in HN.
    destruct (loop_body num_cols num_rows rnd st) as [st1|] eqn:Hb; [|done].
    apply IH; [by eapply reach_step|].
    destruct (reachable_inv _ _ _ _ Hr) as (V & E & Hinv).
    assert (Hcur : in_grid num_cols num_rows (current_cell st)).
    { apply (inv_in_grid _ _ _ _ _ Hinv), (inv_cur _ _ _ _ _ Hinv). }
    assert (Hs : in_grid num_cols num_rows (start_cell st)).
    { apply (inv_in_grid _ _ _ _ _ Hinv). eapply grown_root_in, Hinv. }
    assert (HV : (length V <= length (all_refs num_cols num_rows))%nat).
    { apply NoDup_incl_length.
      - apply NoDup_ListNoDup. eapply grown_NoDup, Hinv.
      - intros x Hx. apply list_elem_of_In, elem_of_all_refs, (inv_in_grid _ _ _ _ _ Hinv).
        by apply list_elem_of_In. }
    rewrite length_all_refs in HV. destruct Hs as [Hs1 Hs2].
    pose proof (inv_count _ _ _ _ _ Hinv) as Hc.
    assert (Z.of_nat (Z.to_nat num_rows * Z.to_nat num_cols) = num_cols * num_rows)
      by (rewrite Nat2Z.inj_mul; lia).
    rewrite loop_body_spec in Hb by (done || apply Hinv).
    destruct (frontier num_cols num_rows (maze st) (current_cell st)) as [|d l].
    + destruct (visited_stack st) as [|top rest] eqn:Hst; [done|].
      inversion Hb; subst st1. simpl in *. lia.
    + inversion Hb; subst st1. simpl in *. lia.
Qed.

(** C2.  On the 10 by 10 grid of the script there is a run in which the
    stack is popped down to no element at all while one cell is still
    unvisited: after 197 iterations the stack is empty and 99 of the 100
    cells are visited.  The run then advances once more and finishes, so
    the stack was not popped while empty. *)
Theorem stack_emptied_before_completion :
  exists st st',
    state_after 10 10 long_rnd 196 = Ok st /\
    visited_stack st = [start_cell st] /\
    loop_body 10 10 long_rnd st = Ok st' /\
    visited_stack st' = [] /\
    nVisited st' = 99 /\ nVisited st' <> 10 * 10 /\
    generate_directional_maze 10 10 long_rnd 198 = Finished (advance st' 
      (mkDir (WEST, EAST) (-1, 0) (fun x y => 0 <? x))).
Proof.
  destruct (state_after 10 10 long_rnd 196) as [st|] eqn:Hst;
    [|vm_compute in Hst; discriminate].
  destruct (loop_body 10 10 long_rnd st) as [st'|] eqn:Hst'.
  2:{ assert (H : match state_after 10 10 long_rnd 196 with
                  | Ok st => match loop_body 10 10 long_rnd st with
                             | Ok _ => True | Raise _ => False end
                  | Raise _ => True end) by (vm_compute; exact I).
      rewrite Hst, Hst' in H. destruct H. }
  exists st, st'.
  assert (H : match state_after 10 10 long_rnd 196 with
              | Ok st =>
                  visited_stack st = [start_cell st] /\
                  match loop_body 10 10 long_rnd st with
                  | Ok st' =>
                      visited_stack st' = [] /\ nVisited st' = 99 /\
                      generate_directional_maze 10 10 long_rnd 198 =
                      Finished (advance st' (mkDir (WEST, EAST) (-1, 0) (fun x y => 0 <? x)))
                  | Raise _ => False
                  end
              | Raise _ => False
              end) by (vm_compute; repeat split; reflexivity).
  rewrite Hst, Hst' in H. destruct H as (H1 & H2 & H3 & H4).
  rewrite H3.
  split; [reflexivity|]. split; [exact H1|]. split; [exact Hst'|].
  split; [exact H2|]. split; [reflexivity|]. split; [lia | exact H4].
Qed.

(** C3.  On the 10 by 10 grid, start at row 1, column 0 and walk east,
    north and west into the corner, a dead end.  The first pop hands back
    the corner cell itself, so the current cell stays where it is, yet
    [current_path_length] drops to 3; the only simple path of open
    passages from the start cell to the current cell has 4 cells. *)
Theorem path_length_undercounts :
  exists st,
    state_after 10 10 corner_rnd 4 = Ok st /\
    start_cell st = (1%nat, 0%nat) /\ current_cell st = (0%nat, 0%nat) /\
    current_path_length st = 3 /\
    simple_path (passage 10 10 (maze st)) (start_cell st) (current_cell st)
      [(1%nat, 0%nat); (1%nat, 1%nat); (0%nat, 1%nat); (0%nat, 0%nat)] /\
    (forall l, simple_path (passage 10 10 (maze st)) (start_cell st) (current_cell st) l ->
               length l = 4%nat).
Proof.
  destruct (state_after 10 10 corner_rnd 4) as [st|] eqn:Hst;
    [|vm_compute in Hst; discriminate].
  exists st.
  assert (H : match state_after 10 10 corner_rnd 4 with
              | Ok st =>
                  start_cell st = (1%nat, 0%nat) /\ current_cell st = (0%nat, 0%nat) /\
                  current_path_length st = 3 /\
                  open_neighbours 10 10 (maze st) (1%nat, 0%nat) = [(1%nat, 1%nat)] /\
                  open_neighbours 10 10 (maze st) (1%nat, 1%nat) =
                    [(0%nat, 1%nat); (1%nat, 0%nat)] /\
                  open_neighbours 10 10 (maze st) (0%nat, 1%nat) =
                    [(1%nat, 1%nat); (0%nat, 0%nat)] /\
                  open_neighbours 10 10 (maze st) (0%nat, 0%nat) = [(0%nat, 1%nat)]
              | Raise _ => False
              end) by (vm_compute; repeat split; reflexivity).
  rewrite Hst in H. destruct H as (Hs & Hc & Hl & N10 & N11 & N01 & N00).
  split; [reflexivity|]. clear Hst.
  rewrite Hs, Hc.
  assert (Hp : forall a b, passage 10 10 (maze st) a b ->
                           b ∈ open_neighbours 10 10 (maze st) a).
  { intros a b. apply passage_open_neighbours. }
  assert (Hq : forall a b, in_grid 10 10 a -> b ∈ open_neighbours 10 10 (maze st) a ->
                           passage 10 10 (maze st) a b).
  { intros a b Ha Hb. by apply passage_open_neighbours. }
  split; [reflexivity|]. split; [reflexivity|]. split; [exact Hl|].
  split; [repeat split|].
  - apply (bool_decide_unpack _). vm_compute. exact I.
  - apply Hq; [unfold in_grid; simpl; lia|]. rewrite N10. set_solver.
  - apply Hq; [unfold in_grid; simpl; lia|]. rewrite N11. set_solver.
  - apply Hq; [unfold in_grid; simpl; lia|]. rewrite N01. set_solver.
  - intros l (Hh & Hlast & Hnd & Hch).
    destruct l as [|x0 l]; [done|]. simpl in Hh. inversion Hh; subst x0.
    destruct l as [|x1 l]; [simpl in Hlast; congruence|].
    destruct Hch as [H1 Hch]. apply Hp in H1. rewrite N10 in H1.
    apply list_elem_of_singleton in H1 as ->.
    destruct l as [|x2 l]; [simpl in Hlast; congruence|].
    destruct Hch as [H2 Hch]. apply Hp in H2. rewrite N11 in H2.
    apply elem_of_cons in H2 as [->|H2].
    2:{ apply list_elem_of_singleton in H2 as ->. exfalso.
        apply NoDup_cons in Hnd as [Hnd _]. apply Hnd. set_solver. }
    destruct l as [|x3 l]; [simpl in Hlast; congruence|].
    destruct Hch as [H3 Hch]. apply Hp in H3. rewrite N01 in H3.
    apply elem_of_cons in H3 as [->|H3].
    { exfalso. apply NoDup_cons in Hnd as [_ Hnd].
      apply NoDup_cons in Hnd as [Hnd _]. apply Hnd. set_solver. }
    apply list_elem_of_singleton in H3 as ->.
    destruct l as [|x4 l]; [done|].
    destruct Hch as [H4 Hch]. apply Hp in H4. rewrite N00 in H4.
    apply list_elem_of_singleton in H4 as ->. exfalso.
    apply NoDup_cons in Hnd as [_ Hnd]. apply NoDup_cons in Hnd as [_ Hnd].
    apply NoDup_cons in Hnd as [Hnd _]. apply Hnd. set_solver.
Qed.

(** The stack and the counter move together: [current_path_length] is the
    length of the stack, whatever the stack holds. *)
Lemma path_length_is_stack_length num_cols num_rows rnd st :
  reachable num_cols num_rows rnd st ->
  current_path_length st = Z.of_nat (length (visited_stack st)) /\
  current_path_length st <= longest_path_length st.
Proof.
  intros Hr. apply reachable_inv in Hr as (V & E & Hinv).
  split; apply Hinv.
Qed.

(** On a square grid the start number is decoded correctly. *)
Lemma select_start_square n r :
  0 < n -> 0 <= r < n * n ->
  select_start n n r = Ok (Z.to_nat (r / n), Z.to_nat (r mod n)).
Proof.
  intros Hn Hr. unfold select_start.
  apply (subscript2_in_range n n); [apply wf_maze_init | |].
  - split; [apply Z.div_pos; lia | apply Z.div_lt_upper_bound; lia].
  - by apply Z.mod_pos_bound.
Qed.

(** C4.  The start number is divided by the number of rows and reduced
    modulo the number of columns.  With 2 columns and 1 row the draw 1 is
    decoded as row 1, which does not exist; with 1 column and 2 rows both
    draws are decoded as the same cell, and the cell of row 1 is never the
    start. *)
Theorem start_selection_misses_cells :
  select_start 2 1 1 = Raise IndexError /\
  select_start 1 2 0 = Ok (0%nat, 0%nat) /\
  select_start 1 2 1 = Ok (0%nat, 0%nat) /\
  (forall rnd, rnd 0%nat = 1 -> forall fuel,
     generate_directional_maze 2 1 rnd fuel = Raised IndexError).
Proof.
  repeat split; try reflexivity.
  intros rnd Hrnd fuel. unfold generate_directional_maze, initial_state, randbelow.
  simpl. by rewrite Hrnd.
Qed.

(** When there is more than one cell, a finished walk has set [end_cell]
    to a cell other than the start cell. *)
Lemma end_differs_from_start num_cols num_rows rnd fuel st :
  1 < num_cols * num_rows ->
  generate_directional_maze num_cols num_rows rnd fuel = Finished st ->
  exists e, end_cell st = Some e /\ e <> start_cell st.
Proof.
  intros HN Hgen. apply generate_finished in Hgen as [Hr Hfin].
  apply reachable_inv in Hr as (V & E & Hinv).
  pose proof (inv_end _ _ _ _ _ Hinv) as He.
  destruct (end_cell st) as [e|].
  - exists e. tauto.
  - destruct He as (HV & _). pose proof (inv_count _ _ _ _ _ Hinv) as Hc.
    rewrite HV in Hc. simpl in Hc. lia.
Qed.

(** C5.  On the 1 by 1 grid the loop body never runs: generation finishes
    at once with no passage, the start cell set, and [end_cell] still
    [None], so the two markers do not name the same cell. *)
Theorem single_cell_leaves_end_unset rnd fuel :
  exists st,
    generate_directional_maze 1 1 rnd fuel = Finished st /\
    start_cell st = (0%nat, 0%nat) /\
    end_cell st = None /\
    end_cell st <> Some (start_cell st) /\
    num_passages 1 1 (maze st) = 0%nat.
Proof.
  unfold generate_directional_maze, initial_state, randbelow. simpl.
  rewrite Z.mod_1_r. simpl.
  exists (mkState (assign_visited (maze_init 1 1) (0%nat, 0%nat))
            (0%nat, 0%nat) None (0%nat, 0%nat) [(0%nat, 0%nat)] 1 1 1 1).
  split; [by destruct fuel|]. by repeat split.
Qed.

(** C10.  On a well-formed grid, and for resulting coordinates not below
    minus the axis size, [get_adjacent_cell] raises exactly when a
    resulting coordinate is at least the axis size; a negative resulting
    coordinate does not raise and selects the cell counted from the
    opposite edge. *)
Theorem get_adjacent_cell_wraps num_cols num_rows m base modifier :
  wf_grid num_cols num_rows m ->
  - num_cols <= base.1 + modifier.1 ->
  - num_rows <= base.2 + modifier.2 ->
  (get_adjacent_cell m base modifier = Raise IndexError <->
   (num_cols <= base.1 + modifier.1 \/ num_rows <= base.2 + modifier.2)) /\
  (base.1 + modifier.1 < num_cols -> base.2 + modifier.2 < num_rows ->
   get_adjacent_cell m base modifier =
   Ok (Z.to_nat (if base.2 + modifier.2 <? 0
                 then num_rows + (base.2 + modifier.2) else base.2 + modifier.2),
       Z.to_nat (if base.1 + modifier.1 <? 0
                 then num_cols + (base.1 + modifier.1) else base.1 + modifier.1))).
Proof.
  intros (Hlen & Hrows & _) Hx Hy. unfold get_adjacent_cell, subscript2.
  set (x := base.1 + modifier.1) in *. set (y := base.2 + modifier.2) in *.
  destruct (Z_le_dec num_rows y) as [Hy'|Hy'].
  { assert (Hr : norm_index (length m) y = Raise IndexError).
    { apply norm_index_raises. lia. }
    rewrite Hr. simpl. split; [tauto | lia]. }
  assert (Hr : norm_index (length m) y =
               Ok (Z.to_nat (if y <? 0 then num_rows + y else y))).
  { destruct (y <? 0) eqn:Hneg.
    - apply Z.ltb_lt in Hneg. rewrite norm_index_wrapped by lia. do 2 f_equal. lia.
    - apply Z.ltb_ge in Hneg. apply norm_index_in_range. lia. }
  rewrite Hr, bind_Ok.
  destruct (lookup_lt_is_Some_2 m (Z.to_nat (if y <? 0 then num_rows + y else y)))
    as [row Hrow].
  { destruct (y <? 0) eqn:Hneg; [apply Z.ltb_lt in Hneg | apply Z.ltb_ge in Hneg]; lia. }
  rewrite Hrow. pose proof (Hrows _ _ Hrow) as Hlrow.
  destruct (Z_le_dec num_cols x) as [Hx'|Hx'].
  { assert (Hc : norm_index (length row) x = Raise IndexError).
    { apply norm_index_raises. lia. }
    rewrite Hc. simpl. split; [tauto | lia]. }
  assert (Hc : norm_index (length row) x =
               Ok (Z.to_nat (if x <? 0 then num_cols + x else x))).
  { destruct (x <? 0) eqn:Hneg.
    - apply Z.ltb_lt in Hneg. rewrite norm_index_wrapped by lia. do 2 f_equal. lia.
    - apply Z.ltb_ge in Hneg. apply norm_index_in_range. lia. }
  rewrite Hc, bind_Ok. split; [|done]. split; [done | lia].
Qed.

Lemma get_adjacent_cell_wraps_witness :
  get_adjacent_cell (maze_init 3 3) (0, 1) (-1, 0) = Ok (1%nat, 2%nat).
Proof.
  apply (get_adjacent_cell_wraps 3 3 (maze_init 3 3) (0, 1) (-1, 0));
    [apply wf_maze_init | simpl; lia | simpl; lia | simpl; lia | simpl; lia].
Defined.

(** * The claims about slicing *)

Lemma page_size_px : (py_round a4_width_px, py_round a4_height_px) = (2480, 3508).
Proof. vm_compute. reflexivity. Qed.

(** C7, as stated, fails.  On the 10 by 10 grid of the script the canvas
    is 10925 pixels wide, and the pixel in column 10500 of row 0 lies in
    the source rectangle of no tile, so the tiles do not partition the
    canvas. *)
Lemma tiles_leave_canvas_uncovered : ~ tiles_partition_canvas 10 10.
Proof.
  intros H. destruct (H 10500 0) as (t & Ht & Hin & _).
  - vm_compute. split; [discriminate | reflexivity].
  - vm_compute. split; [discriminate | reflexivity].
  - apply elem_of_page_indices in Ht as [_ Hx]. destruct Hin as (_ & Hend & _).
    assert (Hp : a4_pages_required_horizontal 10 = 5) by (vm_compute; reflexivity).
    rewrite Hp in Hx.
    assert (Hcases : t.2 = 0 \/ t.2 = 1 \/ t.2 = 2 \/ t.2 = 3 \/ t.2 = 4) by lia.
    destruct Hcases as [Hc|[Hc|[Hc|[Hc|Hc]]]]; rewrite Hc in Hend;
      vm_compute in Hend; by apply Hend.
Qed.

(** C7, amended.  The tiles stop short of the canvas.  The source
    rectangle of the last page column ends at the maze content edge and
    that of the last page row likewise; the maze content edge lies more
    than 828 pixels inside the canvas.  A pixel of any tile is not beyond
    the maze content edge, or not beyond the end of the last but one page
    column.  So, whenever the page columns before the last do not already
    span the canvas, the last pixel column of the canvas belongs to no
    tile: the tiles do not cover the canvas. *)
Theorem tiles_stop_short_of_canvas num_cols num_rows :
  0 <= num_cols -> 0 <= num_rows ->
  (inject_Z (a4_pages_required_horizontal num_cols - 1) * a4_width_px
     < inject_Z (image_size num_cols num_rows).1)%Q ->
  (forall x, is_last_page_x num_cols x = true -> slice_end_x num_cols x = maze_edge_x num_cols) /\
  (forall y, is_last_page_y num_rows y = true -> slice_end_y num_rows y = maze_edge_y num_rows) /\
  (maze_edge_x num_cols + 828 < canvas_width num_cols)%Q /\
  (maze_edge_y num_rows + 828 < canvas_height num_rows)%Q /\
  (forall px py t, t ∈ page_indices num_cols num_rows ->
     in_slice num_cols num_rows px py t.1 t.2 ->
     (inject_Z px <= maze_edge_x num_cols \/
      inject_Z px <= inject_Z (a4_pages_required_horizontal num_cols - 1) * a4_width_px - 1)%Q) /\
  (exists px py,
     0 <= px < (image_size num_cols num_rows).1 /\
     0 <= py < (image_size num_cols num_rows).2 /\
     forall t, t ∈ page_indices num_cols num_rows ->
       ~ in_slice num_cols num_rows px py t.1 t.2) /\
  ~ tiles_partition_canvas num_cols num_rows.
Proof.
  intros Hc Hr Hlast.
  destruct (maze_edge_inside_canvas num_cols) as [Hex _].
  destruct (maze_edge_inside_canvas num_rows) as [_ Hey].
  destruct (canvas_at_least num_cols Hc) as [Hcw _].
  destruct (canvas_at_least num_rows Hr) as [_ Hch].
  destruct (py_round_near (canvas_width num_cols)) as [Hw1 Hw2].
  destruct (py_round_near (canvas_height num_rows)) as [Hh1 Hh2].
  unfold image_size in *. simpl in Hlast. simpl.
  set (W := py_round (canvas_width num_cols)) in *.
  set (H := py_round (canvas_height num_rows)) in *.
  assert (HW : 0 < W).
  { apply inject_Z_lt_inv. change (inject_Z 0) with 0%Q. lra. }
  assert (HH : 0 < H).
  { apply inject_Z_lt_inv. change (inject_Z 0) with 0%Q. lra. }
  assert (Hfree : forall t, t ∈ page_indices num_cols num_rows ->
                    ~ in_slice num_cols num_rows (W - 1) 0 t.1 t.2).
  { intros t Ht Hin.
    assert (HW1 : (inject_Z (W - 1) == inject_Z W - 1)%Q).
    { replace W with ((W - 1) + 1) at 2 by lia. rewrite inject_Z_succ. ring. }
    destruct (slice_columns_bounded _ _ _ _ _ Ht Hin) as [Hb|Hb]; rewrite HW1 in Hb; lra. }
  split; [|split; [|split; [|split; [|split; [|split]]]]].
  - intros x Hx. unfold slice_end_x. by rewrite Hx.
  - intros y Hy. unfold slice_end_y. by rewrite Hy.
  - exact Hex.
  - exact Hey.
  - apply slice_columns_bounded.
  - exists (W - 1), 0. split; [lia|]. split; [lia|]. exact Hfree.
  - intros Hpart. destruct (Hpart (W - 1) 0) as (t & Ht & Hin & _); [simpl; lia..|].
    by apply (Hfree t).
Qed.

Lemma tiles_stop_short_of_canvas_witness :
  (maze_edge_x 10 + 828 < canvas_width 10)%Q /\
  exists px py,
    0 <= px < (image_size 10 10).1 /\ 0 <= py < (image_size 10 10).2 /\
    forall t, t ∈ page_indices 10 10 -> ~ in_slice 10 10 px py t.1 t.2.
Proof.
  assert (H0 : 0 <= 10) by lia.
  assert (Hlast : (inject_Z (a4_pages_required_horizontal 10 - 1) * a4_width_px
                     < inject_Z (image_size 10 10).1)%Q) by (vm_compute; reflexivity).
  destruct (tiles_stop_short_of_canvas 10 10 H0 H0 Hlast) as (_ & _ & He & _ & _ & Hex & _).
  split; [exact He | exact Hex].
Defined.

(** C8.  On the 10 by 10 grid of the script, the slice of page column 0
    and page row 0 is neither in the last column nor in the last row, so
    it is saved as cropped, and the crop is 2479 by 3507 pixels, one less
    each way than the 2480 by 3508 pixels of a page. *)
Theorem interior_slice_smaller_than_page :
  is_last_page_x 10 0 = false /\ is_last_page_y 10 0 = false /\
  slice_size 10 10 0 0 = Ok (2479, 3507) /\
  (py_round a4_width_px, py_round a4_height_px) = (2480, 3508).
Proof. vm_compute. repeat split; reflexivity. Qed.

(** ** The blank check *)

Lemma length_overlay {A : Type} (f : A -> A -> A) base top :
  length (overlay f base top) = length base.
Proof.
  revert top. induction base as [|b base IH]; intros [|t top]; simpl; auto.
Qed.

Lemma paste_rows base tmp w :
  Forall (fun row => length row = w) base ->
  Forall (fun row => length row = w) (paste base tmp).
Proof.
  unfold paste. intros H. revert tmp.
  induction H as [|row base Hrow Hbase IH]; intros [|t tmp]; simpl; try by constructor.
  constructor; [by rewrite length_overlay | apply IH].
Qed.

Lemma concat_rows_nonempty {A : Type} (l : list (list A)) w :
  (0 < w)%nat -> l <> [] -> Forall (fun row => length row = w) l -> concat l <> [].
Proof.
  intros Hw Hl H. destruct l as [|row l]; [done|].
  apply Forall_cons in H as [Hrow _]. simpl.
  destruct row; simpl in *; [lia | done].
Qed.

Lemma fold_min_le v l : fold_right Z.min v l <= v /\ Forall (fun x => fold_right Z.min v l <= x) l.
Proof.
  induction l as [|a l [IH1 IH2]]; simpl; [split; [lia | constructor]|].
  split; [lia|]. constructor; [lia|].
  eapply Forall_impl; [exact IH2|]. simpl. intros; lia.
Qed.

Lemma fold_max_ge v l : v <= fold_right Z.max v l /\ Forall (fun x => x <= fold_right Z.max v l) l.
Proof.
  induction l as [|a l [IH1 IH2]]; simpl; [split; [lia | constructor]|].
  split; [lia|]. constructor; [lia|].
  eapply Forall_impl; [exact IH2|]. simpl. intros; lia.
Qed.

Lemma fold_min_const c l : Forall (fun x => x = c) l -> fold_right Z.min c l = c.
Proof. induction 1; simpl; [done | lia]. Qed.

Lemma fold_max_const c l : Forall (fun x => x = c) l -> fold_right Z.max c l = c.
Proof. induction 1; simpl; [done | lia]. Qed.

(** The extrema are both [c] exactly when there is a pixel and every pixel
    is [c]. *)
Lemma getextrema_uniform l c :
  getextrema l = Some (c, c) <-> l <> [] /\ Forall (fun x => x = c) l.
Proof.
  destruct l as [|v l]; simpl; [split; [done | intros [? _]; done]|]. split.
  - intros [= Hmin Hmax]. split; [done|].
    destruct (fold_min_le v l) as [H1 H2]. destruct (fold_max_ge v l) as [H3 H4].
    rewrite Hmin in H1, H2. rewrite Hmax in H3, H4.
    constructor; [lia|].
    apply Forall_forall. intros x Hx.
    rewrite Forall_forall in H2, H4. specialize (H2 x Hx). specialize (H4 x Hx). lia.
  - intros [_ H]. apply Forall_cons in H as [-> H].
    by rewrite fold_min_const, fold_max_const.
Qed.

(** C9.  For a page of positive size: a slice is skipped exactly when it
    is in the last column or the last row and every pixel of the padded
    page has luminance 255; a slice that is in neither is saved as it is,
    whatever it shows. *)
Theorem slice_skipped_iff_padded_and_blank page_w page_h is_last_x is_last_y image_slice :
  0 < page_w -> 0 < page_h ->
  (finish_slice page_w page_h is_last_x is_last_y image_slice = None <->
   is_last_x || is_last_y = true /\
   Forall (fun v => v = 255)
     (convert_L (paste (image_new page_w page_h) image_slice))) /\
  (is_last_x = false -> is_last_y = false ->
   finish_slice page_w page_h is_last_x is_last_y image_slice = Some image_slice).
Proof.
  intros Hw Hh. unfold finish_slice. split.
  - destruct (is_last_x || is_last_y); [|split; [done | intros [? _]; done]].
    set (l := convert_L (paste (image_new page_w page_h) image_slice)).
    assert (Hne : l <> []).
    { unfold l, convert_L. intros Hnil. apply fmap_nil_inv in Hnil. revert Hnil.
      apply (concat_rows_nonempty _ (Z.to_nat page_w)); [lia| |].
      - intros Hnil. apply (f_equal length) in Hnil.
        unfold paste in Hnil. rewrite length_overlay in Hnil.
        unfold image_new in Hnil. rewrite length_replicate in Hnil. simpl in Hnil. lia.
      - apply paste_rows. unfold image_new. apply Forall_replicate.
        apply length_replicate. }
    pose proof (getextrema_uniform l 255) as Hu.
    destruct (getextrema l) as [[lo hi]|] eqn:Hg.
    + destruct ((lo =? 255) && (hi =? 255)) eqn:Hb.
      * apply andb_true_iff in Hb as [->%Z.eqb_eq ->%Z.eqb_eq].
        split; [|done]. intros _. split; [done|]. by apply Hu.
      * split; [done|]. intros [_ HF].
        assert (Heq : Some (lo, hi) = Some (255, 255)) by (apply Hu; done).
        inversion Heq; subst. done.
    + split; [done|]. intros [_ HF].
      assert (Heq : @None (Z * Z) = Some (255, 255)) by (apply Hu; done). done.
  - by intros -> ->.
Qed.

Lemma slice_skipped_iff_padded_and_blank_witness :
  finish_slice 2 1 false false [[(0, 0, 0)]] = Some [[(0, 0, 0)]] /\
  (finish_slice 2 1 true false [[white]] = None <->
   true || false = true /\
   Forall (fun v => v = 255) (convert_L (paste (image_new 2 1) [[white]]))).
Proof.
  split.
  - apply (slice_skipped_iff_padded_and_blank 2 1 false false [[(0, 0, 0)]]);
      [lia | lia | reflexivity | reflexivity].
  - apply (slice_skipped_iff_padded_and_blank 2 1 true false [[white]]); lia.
Defined.

(** * Further properties of the walk *)

(** X1.  The loop cannot run for ever: given fuel for twice as many
    iterations as there are cells, generation ends, finished or with an
    exception. *)
Theorem generation_terminates num_cols num_rows rnd fuel :
  (2 * Z.to_nat (num_cols * num_rows) <= fuel)%nat ->
  generate_directional_maze num_cols num_rows rnd fuel <> OutOfFuel.
Proof.
  intros Hfuel. unfold generate_directional_maze.
  destruct (initial_state num_cols num_rows rnd) as [st|] eqn:Hst; [|done].
  apply while_loop_bounded; [by constructor|].
  apply initial_state_shape in Hst as (s & [Hs1 Hs2] & ->). simpl.
  assert (0 < num_cols * num_rows) by nia. lia.
Qed.

Lemma generation_terminates_witness :
  generate_directional_maze 3 3 (fun k => Z.of_nat k) 18 <> OutOfFuel.
Proof.
  apply (generation_terminates 3 3 (fun k => Z.of_nat k) 18). simpl. lia.
Defined.

(** X2.  In a state of the walk no lookup of the loop body fails: the
    iteration either succeeds, or it is the pop of an empty stack at a
    cell without unvisited neighbours that raises [IndexError]. *)
Theorem iteration_fails_only_on_empty_stack num_cols num_rows rnd st :
  reachable num_cols num_rows rnd st ->
  (exists st', loop_body num_cols num_rows rnd st = Ok st') \/
  (loop_body num_cols num_rows rnd st = Raise IndexError /\
   visited_stack st = [] /\
   frontier num_cols num_rows (maze st) (current_cell st) = []).
Proof.
  intros Hr. apply reachable_inv in Hr as (V & E & Hinv).
  rewrite loop_body_spec.
  - destruct (frontier num_cols num_rows (maze st) (current_cell st)) as [|d l].
    + destruct (visited_stack st) as [|top rest]; [by right | left; eauto].
    + left. eauto.
  - apply Hinv.
  - apply (inv_in_grid _ _ _ _ _ Hinv), (inv_cur _ _ _ _ _ Hinv).
Qed.

Lemma iteration_fails_only_on_empty_stack_witness :
  exists st,
    state_after 3 3 (fun k => Z.of_nat k) 2 = Ok st /\
    ((exists st', loop_body 3 3 (fun k => Z.of_nat k) st = Ok st') \/
     (loop_body 3 3 (fun k => Z.of_nat k) st = Raise IndexError /\
      visited_stack st = [] /\
      frontier 3 3 (maze st) (current_cell st) = [])).
Proof.
  eexists. split; [vm_compute; reflexivity|].
  apply (iteration_fails_only_on_empty_stack 3 3 (fun k => Z.of_nat k)).
  apply (state_after_reachable 3 3 (fun k => Z.of_nat k) 2).
  vm_compute; reflexivity.
Defined.

Lemma visited_count num_cols num_rows st V E :
  walk_inv num_cols num_rows st V E ->
  length (List.filter (vis (maze st)) (all_refs num_cols num_rows)) = length V.
Proof.
  intros Hinv. apply Permutation_length, NoDup_Permutation.
  - apply NoDup_ListNoDup, List.NoDup_filter, NoDup_ListNoDup, NoDup_all_refs.
  - eapply grown_NoDup, Hinv.
  - intros p. rewrite list_elem_of_In, filter_In, <- list_elem_of_In, elem_of_all_refs.
    rewrite (inv_vis _ _ _ _ _ Hinv). split; [tauto|].
    intros Hp. split; [by apply (inv_in_grid _ _ _ _ _ Hinv) | done].
Qed.

(** X3.  [nVisited] is the number of cells marked visited, and the number
    of passages the drawing loop will find is one less, in every state of
    the walk. *)
Theorem counters_agree_with_grid num_cols num_rows rnd st :
  reachable num_cols num_rows rnd st ->
  Z.of_nat (length (List.filter (vis (maze st)) (all_refs num_cols num_rows))) = nVisited st /\
  Z.of_nat (num_passages num_cols num_rows (maze st)) = nVisited st - 1.
Proof.
  intros Hr. apply reachable_inv in Hr as (V & E & Hinv).
  rewrite (visited_count _ _ _ _ _ Hinv), (inv_passages _ _ _ _ _ Hinv),
    (inv_count _ _ _ _ _ Hinv), (grown_length _ _ _ (inv_grown _ _ _ _ _ Hinv)).
  split; lia.
Qed.

Lemma counters_agree_with_grid_witness :
  exists st,
    state_after 3 3 (fun k => Z.of_nat k) 4 = Ok st /\
    Z.of_nat (length (List.filter (vis (maze st)) (all_refs 3 3))) = nVisited st /\
    Z.of_nat (num_passages 3 3 (maze st)) = nVisited st - 1.
Proof.
  eexists. split; [vm_compute; reflexivity|].
  apply (counters_agree_with_grid 3 3 (fun k => Z.of_nat k)).
  apply (state_after_reachable 3 3 (fun k => Z.of_nat k) 4).
  vm_compute; reflexivity.
Defined.

(** X4.  A connection flag is only ever set along a table entry whose
    bounds check holds at that cell, and both ends of the passage are
    visited cells: no passage leads off the grid or into an unvisited
    cell. *)
Theorem passages_join_visited_cells num_cols num_rows rnd st a dd :
  reachable num_cols num_rows rnd st ->
  in_grid num_cols num_rows a ->
  dd ∈ directional_metadata num_cols num_rows ->
  conn (maze st) a (dd_ids dd).1 = true ->
  dd_bounds dd (Z.of_nat a.2) (Z.of_nat a.1) = true /\
  in_grid num_cols num_rows (nbr a dd) /\
  vis (maze st) a = true /\ vis (maze st) (nbr a dd) = true.
Proof.
  intros Hr Ha Hdd Hc. apply reachable_inv in Hr as (V & E & Hinv).
  apply (inv_conn _ _ _ _ _ Hinv) in Hc as [Hb Hadj]; [|done..].
  apply (grown_adj_in _ _ _ _ _ (inv_grown _ _ _ _ _ Hinv)) in Hadj as [HaV HqV].
  repeat split; try done.
  - by apply (inv_in_grid _ _ _ _ _ Hinv).
  - by apply (inv_in_grid _ _ _ _ _ Hinv).
  - by apply (inv_vis _ _ _ _ _ Hinv).
  - by apply (inv_vis _ _ _ _ _ Hinv).
Qed.

Lemma passages_join_visited_cells_witness :
  exists st,
    state_after 3 3 (fun _ => 0) 1 = Ok st /\
    vis (maze st) (0%nat, 1%nat) = true.
Proof.
  eexists. split; [vm_compute; reflexivity|].
  apply (passages_join_visited_cells 3 3 (fun _ => 0) _ (0%nat, 0%nat)
           (mkDir (EAST, WEST) (1, 0) (fun x y => x <? 3 - 1))).
  - apply (state_after_reachable 3 3 (fun _ => 0) 1). vm_compute; reflexivity.
  - unfold in_grid; simpl; lia.
  - unfold directional_metadata. set_solver.
  - vm_compute; reflexivity.
Defined.

(** X5.  At every moment of the walk, not only at its end, the open
    passages form a tree on the visited cells: any two visited cells are
    joined by open passages and there is no cycle. *)
Theorem passages_always_form_a_tree num_cols num_rows rnd st :
  reachable num_cols num_rows rnd st ->
  (forall a b, vis (maze st) a = true -> vis (maze st) b = true ->
     rtc (passage num_cols num_rows (maze st)) a b) /\
  (forall l, ~ cycle (passage num_cols num_rows (maze st)) l).
Proof.
  intros Hr. apply reachable_inv in Hr as (V & E & Hinv).
  assert (Hg := inv_grown _ _ _ _ _ Hinv).
  pose proof (fun a b => passage_adj num_cols num_rows st V E a b Hinv) as Hiff.
  assert (Hpa : forall x y, adj E x y -> passage num_cols num_rows (maze st) x y).
  { intros x y. apply Hiff. }
  split.
  - intros a b Ha Hb.
    apply (inv_vis _ _ _ _ _ Hinv) in Ha. apply (inv_vis _ _ _ _ _ Hinv) in Hb.
    transitivity (start_cell st).
    + apply rtc_symmetric.
      * intros x y Hxy. apply Hpa, adj_sym. by apply Hiff.
      * eapply rtc_subrel; [apply Hpa|]. by eapply grown_connected.
    + eapply rtc_subrel; [apply Hpa|]. by eapply grown_connected.
  - intros l Hl. apply (grown_acyclic _ _ _ l Hg).
    eapply cycle_impl; [|done]. intros x y. apply Hiff.
Qed.

Lemma passages_always_form_a_tree_witness :
  exists st,
    state_after 3 3 (fun k => Z.of_nat k) 3 = Ok st /\
    (forall a b, vis (maze st) a = true -> vis (maze st) b = true ->
       rtc (passage 3 3 (maze st)) a b) /\
    (forall l, ~ cycle (passage 3 3 (maze st)) l).
Proof.
  eexists. split; [vm_compute; reflexivity|].
  apply (passages_always_form_a_tree 3 3 (fun k => Z.of_nat k)).
  apply (state_after_reachable 3 3 (fun k => Z.of_nat k) 3).
  vm_compute; reflexivity.
Defined.

(** X6.  [current_path_length] always equals the length of the list
    [visited], and never exceeds [longest_path_length]. *)
Theorem path_length_tracks_stack num_cols num_rows rnd st :
  reachable num_cols num_rows rnd st ->
  current_path_length st = Z.of_nat (length (visited_stack st)) /\
  current_path_length st <= longest_path_length st.
Proof. apply path_length_is_stack_length. Qed.

Lemma path_length_tracks_stack_witness :
  exists st,
    state_after 10 10 corner_rnd 5 = Ok st /\
    current_path_length st = Z.of_nat (length (visited_stack st)) /\
    current_path_length st <= longest_path_length st.
Proof.
  eexists. split; [vm_compute; reflexivity|].
  apply (path_length_tracks_stack 10 10 corner_rnd).
  apply (state_after_reachable 10 10 corner_rnd 5).
  vm_compute; reflexivity.
Defined.

(** X7.  When generation over more than one cell finishes, [end_cell] has
    been set, to a visited cell of the grid other than the start cell. *)
Theorem end_cell_set_and_distinct num_cols num_rows rnd fuel st :
  1 < num_cols * num_rows ->
  generate_directional_maze num_cols num_rows rnd fuel = Finished st ->
  exists e, end_cell st = Some e /\ e <> start_cell st /\
            in_grid num_cols num_rows e /\ vis (maze st) e = true.
Proof.
  intros HN Hgen. apply generate_finished in Hgen as [Hr Hfin].
  apply reachable_inv in Hr as (V & E & Hinv).
  pose proof (inv_end _ _ _ _ _ Hinv) as He.
  destruct (end_cell st) as [e|].
  - exists e. destruct He as [HeV Hne]. repeat split; try done.
    + by apply (inv_in_grid _ _ _ _ _ Hinv).
    + by apply (inv_in_grid _ _ _ _ _ Hinv).
    + by apply (inv_vis _ _ _ _ _ Hinv).
  - destruct He as (HV & _). pose proof (inv_count _ _ _ _ _ Hinv) as Hc.
    rewrite HV in Hc. simpl in Hc. lia.
Qed.

Lemma end_cell_set_and_distinct_witness :
  exists st,
    generate_directional_maze 3 3 (fun k => Z.of_nat k) 20 = Finished st /\
    exists e, end_cell st = Some e /\ e <> start_cell st /\
              in_grid 3 3 e /\ vis (maze st) e = true.
Proof.
  eexists. split; [vm_compute; reflexivity|].
  apply (end_cell_set_and_distinct 3 3 (fun k => Z.of_nat k) 20); [lia|].
  vm_compute; reflexivity.
Defined.

(** X8.  How the start number is decoded on a grid of any shape: the row
    index is the number divided by [num_rows], the column index the number
    modulo [num_cols]; the subscript raises [IndexError] exactly when the
    quotient is not a row.  With no more columns than rows it never
    raises. *)
Theorem select_start_decodes num_cols num_rows r :
  0 < num_cols -> 0 < num_rows -> 0 <= r < num_cols * num_rows ->
  select_start num_cols num_rows r =
    (if r / num_rows <? num_rows
     then Ok (Z.to_nat (r / num_rows), Z.to_nat (r mod num_cols))
     else Raise IndexError) /\
  (num_cols <= num_rows -> r / num_rows < num_rows).
Proof.
  intros Hc Hr Hrange.
  assert (Hq : 0 <= r / num_rows) by (apply Z.div_pos; lia).
  split.
  - destruct (r / num_rows <? num_rows) eqn:Hlt.
    + apply Z.ltb_lt in Hlt. unfold select_start.
      apply (subscript2_in_range num_cols num_rows); [apply wf_maze_init | lia |].
      by apply Z.mod_pos_bound.
    + apply Z.ltb_ge in Hlt. unfold select_start, subscript2.
      assert (Hn : norm_index (length (maze_init num_cols num_rows)) (r / num_rows)
                   = Raise IndexError).
      { apply norm_index_raises. left.
        destruct (wf_maze_init num_cols num_rows) as [-> _]. lia. }
      by rewrite Hn.
  - intros Hle. apply Z.div_lt_upper_bound; [lia|]. nia.
Qed.

Lemma select_start_decodes_witness :
  select_start 3 2 5 = (if 5 / 2 <? 2 then Ok (Z.to_nat (5 / 2), Z.to_nat (5 mod 3))
                        else Raise IndexError).
Proof.
  apply (select_start_decodes 3 2 5); lia.
Defined.

(** X9.  On a square grid the decoding is one to one and onto: every cell
    is the start cell for exactly one start number. *)
Theorem select_start_square_bijective n p :
  0 < n -> in_grid n n p ->
  0 <= Z.of_nat p.1 * n + Z.of_nat p.2 < n * n /\
  select_start n n (Z.of_nat p.1 * n + Z.of_nat p.2) = Ok p /\
  (forall r, 0 <= r < n * n -> select_start n n r = Ok p ->
             r = Z.of_nat p.1 * n + Z.of_nat p.2).
Proof.
  intros Hn [Hr Hc]. destruct p as [row col]. simpl in *.
  assert (Hrange : 0 <= Z.of_nat row * n + Z.of_nat col < n * n) by nia.
  split; [done|]. split.
  - rewrite select_start_square by done.
    rewrite Z.div_add_l, Z.div_small, Z.add_0_r by lia.
    rewrite Z.add_comm, Z.mod_add, Z.mod_small by lia.
    by rewrite !Nat2Z.id.
  - intros r Hr' Hsel. rewrite select_start_square in Hsel by done.
    inversion Hsel as [[H1 H2]].
    assert (0 <= r / n) by (apply Z.div_pos; lia).
    pose proof (Z.mod_pos_bound r n Hn).
    rewrite Z2Nat.id by lia. rewrite Z2Nat.id by lia.
    rewrite Z.mul_comm. apply Z.div_mod. lia.
Qed.

Lemma select_start_square_bijective_witness :
  select_start 10 10 (Z.of_nat 7 * 10 + Z.of_nat 4) = Ok (7%nat, 4%nat).
Proof.
  apply (select_start_square_bijective 10 (7%nat, 4%nat)); [lia|].
  unfold in_grid; simpl; lia.
Defined.

(** X10.  When the bounds check of a table entry holds at a cell of the
    grid, [get_adjacent_cell] does not raise and does not wrap around: it
    returns the cell whose stored coordinates are the cell's coordinates
    plus the entry's offset. *)
Theorem adjacent_cell_in_bounds num_cols num_rows m a dd :
  wf_grid num_cols num_rows m ->
  in_grid num_cols num_rows a ->
  dd ∈ directional_metadata num_cols num_rows ->
  dd_bounds dd (Z.of_nat a.2) (Z.of_nat a.1) = true ->
  exists q c,
    get_adjacent_cell m (Z.of_nat a.2, Z.of_nat a.1) (dd_delta dd) = Ok q /\
    deref m q = Some c /\
    coords c = (Z.of_nat a.2 + (dd_delta dd).1, Z.of_nat a.1 + (dd_delta dd).2).
Proof.
  intros Hwf Ha Hdd Hb.
  assert (Hl : leads num_cols num_rows dd a) by done.
  destruct (leads_in_grid _ _ _ _ Ha Hl) as [Hq _].
  destruct (wf_deref _ _ _ _ Hwf Hq) as [c Hc].
  exists (nbr a dd), c. split; [by apply (leads_adjacent num_cols num_rows)|].
  split; [done|].
  destruct Hwf as (_ & _ & Hcells). destruct (Hcells _ _ Hc) as [-> _].
  destruct Ha as [Hr Hcol]. destruct a as [row col]. simpl in *.
  apply md_cases in Hdd as [-> | [-> | [-> | ->]]]; unfold nbr; simpl in *;
    apply Z.ltb_lt in Hb; f_equal; lia.
Qed.

Lemma adjacent_cell_in_bounds_witness :
  exists q c,
    get_adjacent_cell (maze_init 3 3) (Z.of_nat 1, Z.of_nat 2) (0, -1) = Ok q /\
    deref (maze_init 3 3) q = Some c /\
    coords c = (Z.of_nat 1 + 0, Z.of_nat 2 + -1).
Proof.
  apply (adjacent_cell_in_bounds 3 3 (maze_init 3 3) (2%nat, 1%nat)
           (mkDir (NORTH, SOUTH) (0, -1) (fun x y => 0 <? y))).
  - apply wf_maze_init.
  - unfold in_grid; simpl; lia.
  - unfold directional_metadata. set_solver.
  - reflexivity.
Defined.

(** X11.  An iteration never clears a flag: a cell that is visited stays
    visited and an open connection stays open; it marks at most one more
    cell and leaves the start cell as it is. *)
Theorem iteration_only_sets_flags num_cols num_rows rnd st st' :
  reachable num_cols num_rows rnd st ->
  loop_body num_cols num_rows rnd st = Ok st' ->
  (forall p, vis (maze st) p = true -> vis (maze st') p = true) /\
  (forall p i, conn (maze st) p i = true -> conn (maze st') p i = true) /\
  start_cell st' = start_cell st /\
  nVisited st <= nVisited st' <= nVisited st + 1.
Proof.
  intros Hr Hbody. apply reachable_inv in Hr as (V & E & Hinv).
  assert (Hcur : in_grid num_cols num_rows (current_cell st)).
  { apply (inv_in_grid _ _ _ _ _ Hinv), (inv_cur _ _ _ _ _ Hinv). }
  rewrite loop_body_spec in Hbody by (done || apply Hinv).
  destruct (frontier num_cols num_rows (maze st) (current_cell st)) as [|d l] eqn:Hf.
  - destruct (visited_stack st) as [|top rest]; [done|].
    inversion Hbody; subst st'. simpl. repeat split; try done; lia.
  - remember (nth (Z.to_nat (rnd (draws st) mod Z.of_nat (length (d :: l)))) (d :: l) d)
      as dd eqn:Edd.
    assert (st' = advance st dd) as -> by congruence.
    assert (Hdd : dd ∈ frontier num_cols num_rows (maze st) (current_cell st)).
    { rewrite Hf, Edd. apply (choice_in rnd _ (draws st)). apply choice_ok. }
    apply frontier_leads in Hdd as [Hl _].
    destruct (leads_in_grid _ _ _ _ Hcur Hl) as [Hq _].
    simpl. repeat split; try lia.
    + intros p Hp. rewrite (vis_open_passage num_cols num_rows) by (done || apply Hinv).
      by destruct (decide (nbr (current_cell st) dd = p)).
    + intros p i Hp.
      rewrite (conn_open_passage num_cols num_rows) by (done || apply Hinv || apply Hl).
      by repeat case_decide.
Qed.

Lemma iteration_only_sets_flags_witness :
  exists st st',
    state_after 3 3 (fun k => Z.of_nat k) 2 = Ok st /\
    loop_body 3 3 (fun k => Z.of_nat k) st = Ok st' /\
    start_cell st' = start_cell st /\
    nVisited st <= nVisited st' <= nVisited st + 1.
Proof.
  eexists. eexists. split; [vm_compute; reflexivity|].
  split; [vm_compute; reflexivity|].
  apply (iteration_only_sets_flags 3 3 (fun k => Z.of_nat k)).
  - apply (state_after_reachable 3 3 (fun k => Z.of_nat k) 2). vm_compute; reflexivity.
  - vm_compute; reflexivity.
Defined.

(** X12.  The direction table is closed under turning round: if an entry
    leads from a cell to a neighbour, the entry of its opposite id has the
    negated offset and the swapped ids, its bounds check holds at the
    neighbour, and it leads back to the cell. *)
Theorem opposite_entry_leads_back num_cols num_rows a dd :
  in_grid num_cols num_rows a -> leads num_cols num_rows dd a ->
  exists dd',
    leads num_cols num_rows dd' (nbr a dd) /\ nbr (nbr a dd) dd' = a /\
    dd_ids dd' = ((dd_ids dd).2, (dd_ids dd).1) /\
    dd_delta dd' = (- (dd_delta dd).1, - (dd_delta dd).2).
Proof.
  intros [Hr Hc] [Hdd Hb]. destruct a as [r c]. simpl in *.
  apply md_cases in Hdd as [-> | [-> | [-> | ->]]]; simpl in *.
  - exists (mkDir (SOUTH, NORTH) (0, 1) (fun x y => y <? num_rows - 1)).
    unfold leads, nbr, directional_metadata; simpl.
    repeat split; [set_solver | apply Z.ltb_lt in Hb; apply Z.ltb_lt; lia | f_equal; lia].
  - exists (mkDir (WEST, EAST) (-1, 0) (fun x y => 0 <? x)).
    unfold leads, nbr, directional_metadata; simpl.
    repeat split; [set_solver | apply Z.ltb_lt in Hb; apply Z.ltb_lt; lia | f_equal; lia].
  - exists (mkDir (NORTH, SOUTH) (0, -1) (fun x y => 0 <? y)).
    unfold leads, nbr, directional_metadata; simpl.
    repeat split; [set_solver | apply Z.ltb_lt in Hb; apply Z.ltb_lt; lia | f_equal; lia].
  - exists (mkDir (EAST, WEST) (1, 0) (fun x y => x <? num_cols - 1)).
    unfold leads, nbr, directional_metadata; simpl.
    repeat split; [set_solver | apply Z.ltb_lt in Hb; apply Z.ltb_lt; lia | f_equal; lia].
Qed.

Lemma opposite_entry_leads_back_witness :
  exists dd',
    leads 3 3 dd' (nbr (1%nat, 1%nat) (mkDir (EAST, WEST) (1, 0) (fun x y => x <? 3 - 1))) /\
    nbr (nbr (1%nat, 1%nat) (mkDir (EAST, WEST) (1, 0) (fun x y => x <? 3 - 1))) dd'
      = (1%nat, 1%nat) /\
    dd_ids dd' = (WEST, EAST) /\
    dd_delta dd' = (- 1, - 0).
Proof.
  apply (opposite_entry_leads_back 3 3 (1%nat, 1%nat)
           (mkDir (EAST, WEST) (1, 0) (fun x y => x <? 3 - 1))).
  - unfold in_grid; simpl; lia.
  - split; [unfold directional_metadata; set_solver | reflexivity].
Defined.

(** * Further properties of layout, drawing and slicing *)

(** X13.  For grids of 1 to 300 columns (rows), the page count the
    script computes is at least one and covers the canvas: that many
    pages are at least as wide (high) as the canvas.  It is the least
    such count except where the canvas is exactly a whole number of
    pages wide (high): at 51, 135 and 261 columns and at 69 rows the
    rounding errors of the quotient make the script take one page more
    than the pages that cover the canvas exactly. *)
Theorem pages_cover_canvas n :
  1 <= n <= 300 ->
  1 <= a4_pages_required_horizontal n /\
  (canvas_width n <= inject_Z (a4_pages_required_horizontal n) * a4_width_px)%Q /\
  (inject_Z (a4_pages_required_horizontal n - 1) * a4_width_px <= canvas_width n)%Q /\
  ((inject_Z (a4_pages_required_horizontal n - 1) * a4_width_px == canvas_width n)%Q <->
   n = 51 \/ n = 135 \/ n = 261) /\
  1 <= a4_pages_required_vertical n /\
  (canvas_height n <= inject_Z (a4_pages_required_vertical n) * a4_height_px)%Q /\
  (inject_Z (a4_pages_required_vertical n - 1) * a4_height_px <= canvas_height n)%Q /\
  ((inject_Z (a4_pages_required_vertical n - 1) * a4_height_px == canvas_height n)%Q <->
   n = 69).
Proof.
  intros Hn.
  assert (Hall : forallb (fun n =>
            (1 <=? a4_pages_required_horizontal n)
            && Qle_bool (canvas_width n) (inject_Z (a4_pages_required_horizontal n) * a4_width_px)
            && Qle_bool (inject_Z (a4_pages_required_horizontal n - 1) * a4_width_px)
                 (canvas_width n)
            && Bool.eqb
                 (Qeq_bool (inject_Z (a4_pages_required_horizontal n - 1) * a4_width_px)
                    (canvas_width n))
                 ((n =? 51) || (n =? 135) || (n =? 261))
            && (1 <=? a4_pages_required_vertical n)
            && Qle_bool (canvas_height n) (inject_Z (a4_pages_required_vertical n) * a4_height_px)
            && Qle_bool (inject_Z (a4_pages_required_vertical n - 1) * a4_height_px)
                 (canvas_height n)
            && Bool.eqb
                 (Qeq_bool (inject_Z (a4_pages_required_vertical n - 1) * a4_height_px)
                    (canvas_height n))
                 (n =? 69))
          (seqZ 1 300) = true) by (vm_compute; reflexivity).
  rewrite forallb_forall in Hall. specialize (Hall n).
  assert (Hin : In n (seqZ 1 300)) by (apply list_elem_of_In, elem_of_seqZ; lia).
  apply Hall in Hin. clear Hall.
  apply andb_true_iff in Hin as [Hin Hv4]. apply andb_true_iff in Hin as [Hin Hv3].
  apply andb_true_iff in Hin as [Hin Hv2]. apply andb_true_iff in Hin as [Hin Hv1].
  apply andb_true_iff in Hin as [Hin Hh4]. apply andb_true_iff in Hin as [Hin Hh3].
  apply andb_true_iff in Hin as [Hh1 Hh2].
  apply Z.leb_le in Hh1, Hv1. apply Qle_bool_iff in Hh2, Hh3, Hv2, Hv3.
  apply Bool.eqb_prop in Hh4, Hv4.
  split; [exact Hh1|]. split; [exact Hh2|]. split; [exact Hh3|]. split.
  { rewrite <- Qeq_bool_iff, Hh4, !orb_true_iff, !Z.eqb_eq. tauto. }
  split; [exact Hv1|]. split; [exact Hv2|]. split; [exact Hv3|].
  rewrite <- Qeq_bool_iff, Hv4. apply Z.eqb_eq.
Qed.

Lemma pages_cover_canvas_witness :
  a4_pages_required_horizontal 51 = 22 /\
  (inject_Z (a4_pages_required_horizontal 51 - 1) * a4_width_px == canvas_width 51)%Q.
Proof.
  destruct (pages_cover_canvas 51) as (_ & _ & _ & H & _); [lia|].
  split; [vm_compute; reflexivity|]. apply H. auto.
Defined.

(** X14.  For a page column [x] and a page row [y] that are not the last
    ones, the crop box is not a page wide: its start is a multiple of the
    rounded page size and its end a multiple of the exact one, so its
    width is the exact page width less one, plus the rounding error of the
    page width once per page before it; likewise its height.  The box of
    the column starts before it ends. *)
Theorem interior_slice_box num_cols num_rows x y :
  0 <= x -> is_last_page_x num_cols x = false ->
  0 <= y -> is_last_page_y num_rows y = false ->
  (inject_Z (slice_start_x x) < slice_end_x num_cols x)%Q /\
  (slice_end_x num_cols x - inject_Z (slice_start_x x) ==
     a4_width_px - 1 + inject_Z x * (a4_width_px - inject_Z (py_round a4_width_px)))%Q /\
  (slice_end_y num_rows y - inject_Z (slice_start_y y) ==
     a4_height_px - 1 + inject_Z y * (a4_height_px - inject_Z (py_round a4_height_px)))%Q.
Proof.
  intros Hx0 Hlx Hy0 Hly.
  assert (Hx0q := inject_Z_nonneg _ Hx0). assert (Hy0q := inject_Z_nonneg _ Hy0).
  unfold slice_end_x, slice_end_y, slice_start_x, slice_start_y.
  rewrite Hlx, Hly, py_round_a4_width, py_round_a4_height. simpl negb. cbv iota.
  rewrite !inject_Z_mult, !inject_Z_succ.
  set (qx := inject_Z x) in *. set (qy := inject_Z y) in *.
  rewrite a4_width_px_value, a4_height_px_value.
  change (inject_Z 2480) with (2480 # 1)%Q. change (inject_Z 3508) with (3508 # 1)%Q.
  repeat split; lra.
Qed.

Lemma interior_slice_box_witness :
  (slice_end_x 10 0 - inject_Z (slice_start_x 0) ==
     a4_width_px - 1 + inject_Z 0 * (a4_width_px - inject_Z (py_round a4_width_px)))%Q.
Proof.
  assert (H1 : is_last_page_x 10 0 = false) by (vm_compute; reflexivity).
  assert (H2 : is_last_page_y 10 0 = false) by (vm_compute; reflexivity).
  destruct (interior_slice_box 10 10 0 0 (Z.le_refl 0) H1 (Z.le_refl 0) H2) as (_ & H & _).
  exact H.
Defined.

(** X15.  The crop box of the last page row ends at the maze content
    edge.  When the last page row holds no more than 828 pixel rows of
    the canvas, that edge lies above the start of the page row: the box
    passed to [crop] has its lower edge above its upper edge, and [crop]
    raises [ValueError] for every slice of that row.  The script's own 10
    by 10 grid is such a case. *)
Theorem last_row_box_inverted num_cols num_rows x y :
  is_last_page_y num_rows y = true ->
  (canvas_height num_rows - inject_Z (slice_start_y y) <= 828)%Q ->
  (slice_end_y num_rows y < inject_Z (slice_start_y y))%Q /\
  crop_size num_cols num_rows x y = Raise ValueError /\
  slice_size num_cols num_rows x y = Raise ValueError.
Proof.
  intros Hl Hc.
  assert (Hlt : (slice_end_y num_rows y < inject_Z (slice_start_y y))%Q).
  { unfold slice_end_y. rewrite Hl. simpl negb. cbv iota.
    destruct (maze_edge_inside_canvas num_rows) as [_ He]. lra. }
  assert (Hcrop : crop_size num_cols num_rows x y = Raise ValueError).
  { unfold crop_size.
    destruct (Qle_bool (inject_Z (slice_start_x x)) (slice_end_x num_cols x)); [|done].
    destruct (Qle_bool (inject_Z (slice_start_y y)) (slice_end_y num_rows y)) eqn:Hb; [|done].
    apply Qle_bool_iff in Hb. lra. }
  split; [exact Hlt|]. split; [exact Hcrop|].
  unfold slice_size. by rewrite Hcrop.
Qed.

Lemma last_row_box_inverted_witness :
  crop_size 10 10 0 3 = Raise ValueError.
Proof.
  apply (last_row_box_inverted 10 10 0 3); [vm_compute; reflexivity | vm_compute; discriminate].
Defined.

(** * Properties of the drawing loop and the markers *)

Lemma elem_of_cell_rectangles num_cols num_rows m p rc :
  rc ∈ cell_rectangles num_cols num_rows m p ->
  (south_open num_rows m p = true /\
   rc = (cell_offset (Z.of_nat p.2), cell_offset (Z.of_nat p.1),
         cell_offset (Z.of_nat p.2) + path_width,
         cell_offset (Z.of_nat p.1) + path_width + wall_width + path_width)%Q) \/
  (east_open num_cols m p = true /\
   rc = (cell_offset (Z.of_nat p.2), cell_offset (Z.of_nat p.1),
         cell_offset (Z.of_nat p.2) + path_width + wall_width + path_width,
         cell_offset (Z.of_nat p.1) + path_width)%Q).
Proof.
  unfold cell_rectangles. intros H. apply elem_of_app in H as [H|H].
  - left. destruct (south_open num_rows m p); [|by apply elem_of_nil in H].
    apply list_elem_of_singleton in H. by split.
  - right. destruct (east_open num_cols m p); [|by apply elem_of_nil in H].
    apply list_elem_of_singleton in H. by split.
Qed.

Lemma cell_offset_succ i :
  (cell_offset (i + 1) == cell_offset i + path_width + wall_width)%Q.
Proof. unfold cell_offset. rewrite inject_Z_succ. ring. Qed.

(** X16.  Every rectangle drawn for a cell starts at the upper left
    corner of the cell's square.  It is drawn for a set SOUTH flag of a
    cell above the last row and then ends at the lower right corner of
    the square of the cell below, or for a set EAST flag of a cell left
    of the last column and then ends at the lower right corner of the
    square of the cell on the right. *)
Theorem rectangle_joins_adjacent_squares num_cols num_rows m p x0 y0 x1 y1 :
  (x0, y0, x1, y1) ∈ cell_rectangles num_cols num_rows m p ->
  x0 = cell_offset (Z.of_nat p.2) /\ y0 = cell_offset (Z.of_nat p.1) /\
  ((conn m p SOUTH = true /\ Z.of_nat p.1 + 1 < num_rows /\
    (x1 == cell_offset (Z.of_nat p.2) + path_width)%Q /\
    (y1 == cell_offset (Z.of_nat p.1 + 1) + path_width)%Q) \/
   (conn m p EAST = true /\ Z.of_nat p.2 + 1 < num_cols /\
    (x1 == cell_offset (Z.of_nat p.2 + 1) + path_width)%Q /\
    (y1 == cell_offset (Z.of_nat p.1) + path_width)%Q)).
Proof.
  intros H. apply elem_of_cell_rectangles in H as [[Ho [= -> -> -> ->]]|[Ho [= -> -> -> ->]]].
  - split; [done|]. split; [done|]. left.
    apply andb_true_iff in Ho as [Hr Hc]. apply Z.ltb_lt in Hr.
    split; [done|]. split; [lia|]. split; [reflexivity|].
    rewrite cell_offset_succ. ring.
  - split; [done|]. split; [done|]. right.
    apply andb_true_iff in Ho as [Hr Hc]. apply Z.ltb_lt in Hr.
    split; [done|]. split; [lia|]. split; [|reflexivity].
    rewrite cell_offset_succ. ring.
Qed.

Lemma rectangle_joins_adjacent_squares_witness :
  (cell_offset 0 + path_width + wall_width + path_width == cell_offset (0 + 1) + path_width)%Q.
Proof.
  pose (m := open_passage (maze_init 2 1) (0, 0)%nat
               (mkDir (EAST, WEST) (1, 0) (fun x _ => x <? 1))).
  assert (Hin : (cell_offset 0, cell_offset 0,
                 cell_offset 0 + path_width + wall_width + path_width,
                 cell_offset 0 + path_width)%Q ∈ cell_rectangles 2 1 m (0, 0)%nat).
  { vm_compute. apply list_elem_of_here. }
  destruct (rectangle_joins_adjacent_squares 2 1 m (0, 0)%nat _ _ _ _ Hin)
    as (_ & _ & [(Hc & _)|(_ & _ & Hx & _)]).
  - vm_compute in Hc. discriminate Hc.
  - exact Hx.
Defined.

Lemma cell_offset_bounds (i n : Z) :
  0 <= i -> i < n ->
  (wall_width <= cell_offset i)%Q /\
  (cell_offset i + path_width <= (path_width + wall_width) * inject_Z n)%Q.
Proof.
  intros H0 Hn. assert (H0q := inject_Z_nonneg _ H0). assert (Hnq := inject_Z_lt_succ _ _ Hn).
  unfold cell_offset, canvas_buffer. rewrite wall_width_value, path_width_value.
  split; lra.
Qed.

(** X17.  A rectangle drawn for a cell of the grid lies inside the
    canvas: it starts at least a wall width from the left and upper
    edges and ends at least a wall width less a path width from the right
    and lower edges.  It also ends before the maze content edge at which
    the last page column and row are cut. *)
Theorem rectangles_inside_canvas num_cols num_rows m p x0 y0 x1 y1 :
  in_grid num_cols num_rows p ->
  (x0, y0, x1, y1) ∈ cell_rectangles num_cols num_rows m p ->
  (wall_width <= x0 /\ x0 < x1 /\ x1 <= canvas_width num_cols - (wall_width - path_width) /\
   x1 < maze_edge_x num_cols /\
   wall_width <= y0 /\ y0 < y1 /\ y1 <= canvas_height num_rows - (wall_width - path_width) /\
   y1 < maze_edge_y num_rows)%Q.
Proof.
  intros [Hr Hc] H.
  apply elem_of_cell_rectangles in H as [[Ho [= -> -> -> ->]]|[Ho [= -> -> -> ->]]];
    apply andb_true_iff in Ho as [Hlt _]; apply Z.ltb_lt in Hlt.
  - destruct (cell_offset_bounds (Z.of_nat p.2) num_cols) as [Hx0 Hx1]; [lia | lia |].
    destruct (cell_offset_bounds (Z.of_nat p.1 + 1) num_rows) as [_ Hy1]; [lia | lia |].
    destruct (cell_offset_bounds (Z.of_nat p.1) num_rows) as [Hy0 _]; [lia | lia |].
    rewrite cell_offset_succ in Hy1.
    unfold canvas_width, canvas_height, maze_edge_x, maze_edge_y, canvas_buffer.
    set (a := cell_offset (Z.of_nat p.2)) in *. set (b := cell_offset (Z.of_nat p.1)) in *.
    set (nc := inject_Z num_cols) in *. set (nr := inject_Z num_rows) in *.
    rewrite wall_width_value, path_width_value in *.
    repeat split; lra.
  - destruct (cell_offset_bounds (Z.of_nat p.2 + 1) num_cols) as [_ Hx1]; [lia | lia |].
    destruct (cell_offset_bounds (Z.of_nat p.2) num_cols) as [Hx0 _]; [lia | lia |].
    destruct (cell_offset_bounds (Z.of_nat p.1) num_rows) as [Hy0 Hy1]; [lia | lia |].
    rewrite cell_offset_succ in Hx1.
    unfold canvas_width, canvas_height, maze_edge_x, maze_edge_y, canvas_buffer.
    set (a := cell_offset (Z.of_nat p.2)) in *. set (b := cell_offset (Z.of_nat p.1)) in *.
    set (nc := inject_Z num_cols) in *. set (nr := inject_Z num_rows) in *.
    rewrite wall_width_value, path_width_value in *.
    repeat split; lra.
Qed.

Lemma rectangles_inside_canvas_witness :
  (cell_offset 0 + path_width + wall_width + path_width < maze_edge_x 2)%Q.
Proof.
  pose (m := open_passage (maze_init 2 1) (0, 0)%nat
               (mkDir (EAST, WEST) (1, 0) (fun x _ => x <? 1))).
  assert (Hg : in_grid 2 1 (0, 0)%nat) by (unfold in_grid; simpl; lia).
  assert (Hin : (cell_offset 0, cell_offset 0,
                 cell_offset 0 + path_width + wall_width + path_width,
                 cell_offset 0 + path_width)%Q ∈ cell_rectangles 2 1 m (0, 0)%nat).
  { vm_compute. apply list_elem_of_here. }
  destruct (rectangles_inside_canvas 2 1 m (0, 0)%nat _ _ _ _ Hg Hin) as (_ & _ & _ & H & _).
  exact H.
Defined.

Lemma length_bind_cell_rectangles num_cols num_rows m (l : list ref) :
  length (l ≫= cell_rectangles num_cols num_rows m) =
  (length (List.filter (south_open num_rows m) l) +
   length (List.filter (east_open num_cols m) l))%nat.
Proof.
  induction l as [|p l IH]; [done|].
  change ((p :: l) ≫= cell_rectangles num_cols num_rows m)
    with (cell_rectangles num_cols num_rows m p ++ (l ≫= cell_rectangles num_cols num_rows m)).
  rewrite length_app, IH. unfold cell_rectangles. simpl.
  destruct (south_open num_rows m p), (east_open num_cols m p); simpl; lia.
Qed.

(** X18.  The drawing loop draws one rectangle for each passage it finds,
    and on the grid of a finished generation that is one less than the
    number of cells: each passage of the spanning tree is drawn, once. *)
Theorem one_rectangle_per_passage num_cols num_rows rnd fuel st :
  generate_directional_maze num_cols num_rows rnd fuel = Finished st ->
  length (drawn_rectangles num_cols num_rows (maze st)) =
    num_passages num_cols num_rows (maze st) /\
  Z.of_nat (length (drawn_rectangles num_cols num_rows (maze st))) = num_cols * num_rows - 1.
Proof.
  intros Hgen.
  assert (Hlen : length (drawn_rectangles num_cols num_rows (maze st)) =
                 num_passages num_cols num_rows (maze st)).
  { unfold drawn_rectangles, num_passages. apply length_bind_cell_rectangles. }
  split; [exact Hlen|]. rewrite Hlen.
  apply generate_finished in Hgen as [Hr HN].
  apply reachable_inv in Hr as (V & E & Hinv).
  rewrite (inv_passages _ _ _ _ _ Hinv), <- HN, (inv_count _ _ _ _ _ Hinv).
  rewrite (grown_length _ _ _ (inv_grown _ _ _ _ _ Hinv)). lia.
Qed.

Lemma one_rectangle_per_passage_witness :
  exists st,
    generate_directional_maze 3 3 (fun k => Z.of_nat k) 20 = Finished st /\
    Z.of_nat (length (drawn_rectangles 3 3 (maze st))) = 3 * 3 - 1.
Proof.
  eexists. split; [vm_compute; reflexivity|].
  apply (one_rectangle_per_passage 3 3 (fun k => Z.of_nat k) 20).
  vm_compute; reflexivity.
Defined.

(** X19.  The marker of the cell in column [x] and row [y] of the grid is
    a square of four path widths, centred on the centre of the cell's
    square.  It covers that square, stays clear of the squares of the
    adjacent cells, and lies inside the canvas. *)
Theorem marker_centred_on_cell num_cols num_rows x y x0 y0 x1 y1 :
  0 <= x < num_cols -> 0 <= y < num_rows ->
  marker_box x y = (x0, y0, x1, y1) ->
  (x1 - x0 == 4 * path_width /\ y1 - y0 == 4 * path_width /\
   (x0 + x1) / 2 == cell_offset x + path_width / 2 /\
   (y0 + y1) / 2 == cell_offset y + path_width / 2 /\
   x0 < cell_offset x /\ cell_offset x + path_width < x1 /\
   y0 < cell_offset y /\ cell_offset y + path_width < y1 /\
   cell_offset (x - 1) + path_width < x0 /\ x1 < cell_offset (x + 1) /\
   cell_offset (y - 1) + path_width < y0 /\ y1 < cell_offset (y + 1) /\
   0 < x0 /\ x1 < canvas_width num_cols /\
   0 < y0 /\ y1 < canvas_height num_rows)%Q.
Proof.
  intros [Hx0 Hx] [Hy0 Hy]. unfold marker_box. intros [= <- <- <- <-].
  assert (Hxq := inject_Z_nonneg _ Hx0). assert (Hyq := inject_Z_nonneg _ Hy0).
  assert (Hxn := inject_Z_lt_succ _ _ Hx). assert (Hyn := inject_Z_lt_succ _ _ Hy).
  unfold cell_offset, marker_offset, marker_size, canvas_width, canvas_height, canvas_buffer.
  replace (x - 1) with (x + -1) by lia. replace (y - 1) with (y + -1) by lia.
  rewrite !inject_Z_plus.
  change (inject_Z 1) with 1%Q. change (inject_Z (-1)) with (-1 # 1)%Q.
  set (qx := inject_Z x) in *. set (qy := inject_Z y) in *.
  set (nc := inject_Z num_cols) in *. set (nr := inject_Z num_rows) in *.
  rewrite wall_width_value, path_width_value.
  unfold Qdiv. change (/ 2)%Q with (1 # 2)%Q. change (/ 4)%Q with (1 # 4)%Q.
  repeat split; lra.
Qed.

Lemma marker_centred_on_cell_witness :
  exists x0 x1, (x1 - x0 == 4 * path_width)%Q /\ (x1 < canvas_width 10)%Q /\
    marker_box 9 0 = (x0, (marker_box 9 0).1.1.2, x1, (marker_box 9 0).2).
Proof.
  eexists _, _.
  assert (H : marker_box 9 0 = ((marker_box 9 0).1.1.1, (marker_box 9 0).1.1.2,
                                 (marker_box 9 0).1.2, (marker_box 9 0).2)) by reflexivity.
  destruct (marker_centred_on_cell 10 10 9 0 _ _ _ _ ltac:(lia) ltac:(lia) H)
    as (H1 & _ & _ & _ & _ & _ & _ & _ & _ & _ & _ & _ & _ & H2 & _).
  split; [exact H1|]. split; [exact H2|]. reflexivity.
Defined.

(** X20.  The marker box of a cell in the last column ends half a path
    width and two pixels beyond the maze content edge, where the source
    rectangle of the last page column ends: that rectangle stops short of
    the right edge of the marker.  Likewise for a cell in the last row and
    the last page row. *)
Theorem last_column_marker_cut num_cols num_rows x y x0 y0 x1 y1 :
  marker_box x y = (x0, y0, x1, y1) ->
  (x = num_cols - 1 ->
     (x1 == maze_edge_x num_cols + path_width / 2 + 2)%Q /\
     forall px, is_last_page_x num_cols px = true -> (slice_end_x num_cols px < x1)%Q) /\
  (y = num_rows - 1 ->
     (y1 == maze_edge_y num_rows + path_width / 2 + 2)%Q /\
     forall py, is_last_page_y num_rows py = true -> (slice_end_y num_rows py < y1)%Q).
Proof.
  unfold marker_box. intros [= <- <- <- <-].
  assert (Hp : (0 < path_width / 2)%Q) by reflexivity.
  split; intros ->.
  - assert (He : (canvas_buffer + path_width * inject_Z (num_cols - 1)
                    + wall_width * inject_Z (num_cols - 1) - marker_offset + marker_size
                  == maze_edge_x num_cols + path_width / 2 + 2)%Q).
    { unfold marker_offset, marker_size, maze_edge_x, canvas_buffer.
      replace (num_cols - 1) with (num_cols + -1) by lia. rewrite inject_Z_plus.
      change (inject_Z (-1)) with (-1 # 1)%Q. field. }
    split; [exact He|]. intros px Hl. unfold slice_end_x. rewrite Hl. simpl negb. cbv iota.
    rewrite He. set (e := maze_edge_x num_cols) in *. set (d := (path_width / 2)%Q) in *.
    lra.
  - assert (He : (canvas_buffer + path_width * inject_Z (num_rows - 1)
                    + wall_width * inject_Z (num_rows - 1) - marker_offset + marker_size
                  == maze_edge_y num_rows + path_width / 2 + 2)%Q).
    { unfold marker_offset, marker_size, maze_edge_y, canvas_buffer.
      replace (num_rows - 1) with (num_rows + -1) by lia. rewrite inject_Z_plus.
      change (inject_Z (-1)) with (-1 # 1)%Q. field. }
    split; [exact He|]. intros py Hl. unfold slice_end_y. rewrite Hl. simpl negb. cbv iota.
    rewrite He. set (e := maze_edge_y num_rows) in *. set (d := (path_width / 2)%Q) in *.
    lra.
Qed.

Lemma last_column_marker_cut_witness :
  (slice_end_x 10 4 < (marker_box 9 0).1.2)%Q.
Proof.
  assert (H : marker_box 9 0 = ((marker_box 9 0).1.1.1, (marker_box 9 0).1.1.2,
                                 (marker_box 9 0).1.2, (marker_box 9 0).2)) by reflexivity.
  destruct (last_column_marker_cut 10 10 9 0 _ _ _ _ H) as [Hx _].
  destruct (Hx eq_refl) as [_ Hcut]. apply Hcut. vm_compute. reflexivity.
Defined.

(** * Properties of padding and of the blank check *)

Lemma overlay_lookup {A : Type} (f : A -> A -> A) base top i :
  overlay f base top !! i = (fun b => from_option (f b) b (top !! i)) <$> base !! i.
Proof.
  revert top i. induction base as [|b base IH]; intros [|t top] [|i]; simpl;
    try done; try (by destruct (base !! i)); apply IH.
Qed.

Lemma pixel_at_paste base tmp i j :
  pixel_at (paste base tmp) i j = (fun b => default b (pixel_at tmp i j)) <$> pixel_at base i j.
Proof.
  unfold pixel_at, paste. rewrite overlay_lookup.
  destruct (base !! i) as [brow|]; simpl; [|done].
  destruct (tmp !! i) as [trow|]; simpl.
  - rewrite overlay_lookup. destruct (brow !! j); simpl; [|done]. by destruct (trow !! j).
  - by destruct (brow !! j).
Qed.

Lemma pixel_at_image_new w h i j :
  pixel_at (image_new w h) i j =
  if (Z.of_nat i <? h) && (Z.of_nat j <? w) then Some white else None.
Proof.
  unfold pixel_at, image_new.
  destruct (Z.of_nat i <? h) eqn:Hi; simpl.
  - apply Z.ltb_lt in Hi. rewrite lookup_replicate_2 by lia. simpl.
    destruct (Z.of_nat j <? w) eqn:Hj.
    + apply Z.ltb_lt in Hj. by rewrite lookup_replicate_2 by lia.
    + apply Z.ltb_ge in Hj. apply lookup_replicate_None. lia.
  - apply Z.ltb_ge in Hi.
    assert (Hn : replicate (Z.to_nat h) (replicate (Z.to_nat w) white) !! i = None)
      by (apply lookup_replicate_None; lia).
    by rewrite Hn.
Qed.

Lemma Forall_concat_pixel_at (P : pixel -> Prop) (img : image) :
  Forall P (concat img) <-> forall i j p, pixel_at img i j = Some p -> P p.
Proof.
  rewrite Forall_concat. unfold pixel_at. split.
  - intros H i j p Hp. destruct (img !! i) as [row|] eqn:Hrow; simpl in Hp; [|done].
    rewrite Forall_lookup in H. specialize (H i row Hrow).
    rewrite Forall_lookup in H. by apply (H j).
  - intros H. apply Forall_lookup. intros i row Hrow.
    apply Forall_lookup. intros j p Hp. apply (H i j). by rewrite Hrow.
Qed.

Lemma padded_nonempty page_w page_h image_slice :
  0 < page_w -> 0 < page_h ->
  convert_L (paste (image_new page_w page_h) image_slice) <> [].
Proof.
  intros Hw Hh. unfold convert_L. intros Hnil. apply fmap_nil_inv in Hnil. revert Hnil.
  apply (concat_rows_nonempty _ (Z.to_nat page_w)); [lia| |].
  - intros Hnil. apply (f_equal length) in Hnil.
    unfold paste in Hnil. rewrite length_overlay in Hnil.
    unfold image_new in Hnil. rewrite length_replicate in Hnil. simpl in Hnil. lia.
  - apply paste_rows. unfold image_new. apply Forall_replicate.
    apply length_replicate.
Qed.

Lemma last_slice_skipped page_w page_h is_last_x is_last_y image_slice :
  0 < page_w -> 0 < page_h -> is_last_x || is_last_y = true ->
  finish_slice page_w page_h is_last_x is_last_y image_slice = None <->
  Forall (fun v => v = 255) (convert_L (paste (image_new page_w page_h) image_slice)).
Proof.
  intros Hw Hh Hl. unfold finish_slice. rewrite Hl.
  set (l := convert_L (paste (image_new page_w page_h) image_slice)).
  assert (Hne : l <> []) by by apply padded_nonempty.
  pose proof (getextrema_uniform l 255) as Hu.
  destruct (getextrema l) as [[lo hi]|] eqn:Hg.
  - destruct ((lo =? 255) && (hi =? 255)) eqn:Hb.
    + apply andb_true_iff in Hb as [->%Z.eqb_eq ->%Z.eqb_eq].
      split; [|done]. intros _. by apply Hu.
    + split; [done|]. intros HF.
      assert (Heq : Some (lo, hi) = Some (255, 255)) by (apply Hu; done).
      inversion Heq; subst. done.
  - split; [done|]. intros HF.
    assert (Heq : @None (Z * Z) = Some (255, 255)) by (apply Hu; done). done.
Qed.

(** X21.  A slice of the last page column or row that is saved has the
    size of a page, whatever the size of the crop: as many rows as the
    page is high, each as long as the page is wide. *)
Theorem saved_last_slice_has_page_size page_w page_h is_last_x is_last_y image_slice out :
  0 <= page_w -> 0 <= page_h -> is_last_x || is_last_y = true ->
  finish_slice page_w page_h is_last_x is_last_y image_slice = Some out ->
  Z.of_nat (length out) = page_h /\ Forall (fun row => Z.of_nat (length row) = page_w) out.
Proof.
  intros Hw Hh Hl. unfold finish_slice. rewrite Hl.
  set (padded := paste (image_new page_w page_h) image_slice).
  assert (Hshape : Z.of_nat (length padded) = page_h /\
                   Forall (fun row => Z.of_nat (length row) = page_w) padded).
  { unfold padded. split.
    - unfold paste. rewrite length_overlay. unfold image_new. rewrite length_replicate. lia.
    - eapply Forall_impl.
      + apply (paste_rows _ _ (Z.to_nat page_w)). unfold image_new.
        apply Forall_replicate, length_replicate.
      + simpl. intros row ->. lia. }
  intros Hout.
  assert (Heq : out = padded); [|by rewrite Heq].
  destruct (getextrema (convert_L padded)) as [[lo hi]|]; [|congruence].
  destruct ((lo =? 255) && (hi =? 255)); congruence.
Qed.

Lemma saved_last_slice_has_page_size_witness :
  Z.of_nat (length (paste (image_new 2 1) [[black]; [black]])) = 1.
Proof.
  assert (H : finish_slice 2 1 true false [[black]; [black]] =
              Some (paste (image_new 2 1) [[black]; [black]])) by (vm_compute; reflexivity).
  destruct (saved_last_slice_has_page_size 2 1 true false _ _ ltac:(lia) ltac:(lia) eq_refl H)
    as [Hlen _].
  exact Hlen.
Defined.

(** X22.  The padded page shows the crop in its upper left corner and is
    white elsewhere: inside the page, a pixel of the padded page is the
    pixel of the crop at the same place if the crop has one and white if
    not; the padded page has no pixel outside the page, so a crop larger
    than a page is clipped. *)
Theorem padded_page_pixels page_w page_h image_slice i j :
  pixel_at (paste (image_new page_w page_h) image_slice) i j =
  if (Z.of_nat i <? page_h) && (Z.of_nat j <? page_w)
  then Some (default white (pixel_at image_slice i j))
  else None.
Proof.
  rewrite pixel_at_paste, pixel_at_image_new.
  by destruct ((Z.of_nat i <? page_h) && (Z.of_nat j <? page_w)).
Qed.

Lemma luma_div p :
  luma p = (p.1.1 * 19595 + p.1.2 * 38470 + p.2 * 7471 + 32768) / 65536.
Proof. destruct p as [[r g] b]. unfold luma. by rewrite Z.shiftr_div_pow2. Qed.

(** X23.  For a pixel of byte values the luminance is a byte value.
    White has luminance 255 and black 0, but 255 is also the luminance of
    every colour whose weighted distance from white is at most 32768, such
    as (254, 255, 255): the blank check takes these for white. *)
Theorem luma_range r g b :
  0 <= r <= 255 -> 0 <= g <= 255 -> 0 <= b <= 255 ->
  0 <= luma (r, g, b) <= 255 /\
  (luma (r, g, b) = 255 <->
   (255 - r) * 19595 + (255 - g) * 38470 + (255 - b) * 7471 <= 32768) /\
  (luma (r, g, b) = 0 <-> r * 19595 + g * 38470 + b * 7471 < 32768).
Proof.
  intros Hr Hg Hb. rewrite (luma_div (r, g, b)). simpl.
  set (s := r * 19595 + g * 38470 + b * 7471 + 32768).
  assert (Hs : 32768 <= s <= 255 * 65536 + 32768) by (unfold s; lia).
  pose proof (Z.div_mod s 65536 ltac:(lia)) as Hdm.
  pose proof (Z.mod_pos_bound s 65536 ltac:(lia)) as Hm.
  repeat split; unfold s in *; lia.
Qed.

Lemma luma_range_witness :
  luma (254, 255, 255) = 255.
Proof.
  destruct (luma_range 254 255 255 ltac:(lia) ltac:(lia) ltac:(lia)) as (_ & H & _).
  apply H. vm_compute. discriminate.
Defined.

(** X24.  For a crop that shows only black and white, the colours the
    script draws with, the blank check is exact: a slice of the last page
    column or row is skipped exactly when no black pixel of the crop lies
    inside the page. *)
Theorem blank_check_exact_on_black_and_white page_w page_h is_last_x is_last_y image_slice :
  0 < page_w -> 0 < page_h -> is_last_x || is_last_y = true ->
  (forall i j p, pixel_at image_slice i j = Some p -> p = white \/ p = black) ->
  finish_slice page_w page_h is_last_x is_last_y image_slice = None <->
  forall i j, Z.of_nat i < page_h -> Z.of_nat j < page_w ->
    pixel_at image_slice i j <> Some black.
Proof.
  intros Hw Hh Hl Hbw. rewrite last_slice_skipped by done.
  unfold convert_L. rewrite Forall_fmap, Forall_concat_pixel_at. split.
  - intros H i j Hi Hj Hp.
    specialize (H i j black). rewrite padded_page_pixels in H.
    apply Z.ltb_lt in Hi, Hj. rewrite Hi, Hj, Hp in H. simpl in H.
    specialize (H eq_refl). vm_compute in H. discriminate H.
  - intros H i j p. rewrite padded_page_pixels.
    destruct (Z.of_nat i <? page_h) eqn:Hi; [|done].
    destruct (Z.of_nat j <? page_w) eqn:Hj; [|done].
    apply Z.ltb_lt in Hi, Hj. simpl. intros [= <-].
    specialize (H i j Hi Hj).
    destruct (pixel_at image_slice i j) as [q|] eqn:Hq; simpl; [|reflexivity].
    destruct (Hbw i j q Hq) as [-> | ->]; [reflexivity | done].
Qed.

Lemma blank_check_exact_on_black_and_white_witness :
  finish_slice 1 1 true false [[white; black]] = None.
Proof.
  apply (blank_check_exact_on_black_and_white 1 1 true false [[white; black]]);
    [lia | lia | reflexivity | |].
  - intros [|[|[|i]]] [|[|[|j]]] p; vm_compute; intros [= <-]; auto.
  - intros [|i] [|j] Hi Hj; try lia. vm_compute. discriminate.
Defined.
